(** * make_icns: crop-box geometry of the icon preparer

    A shallow embedding of [scripts/make_icns.py].  The script computes a
    square crop box around the opaque content of an image, from the image
    size, the bounding box of its alpha channel and a floating-point fill
    ratio, and hands the cropped and resized raster to Pillow's ICNS writer.

    Python floats are IEEE 754 binary64 values.  They are modelled with the
    Standard Library's [SpecFloat] (integer mantissa and exponent, round to
    nearest even), so that [min_dim * fill_ratio], [content_side / fill_ratio]
    and [round(center_x - crop_side / 2)] are computed here bit for bit as
    CPython computes them.  Python integers are [Z]; a raised exception is a
    value of [result].

    The file has three parts: the definitions (floats, the Python and Pillow
    operations the script calls, the script itself, the vocabulary of its
    specification); a theory of binary64 rounding over the rationals, as far
    as the script needs it; and the properties of the crop box and of [main],
    numbered C1 to C10 after the specification, each followed further down by
    an instance on a sample image.  A last part goes beyond the
    specification: fill ratios outside (0,1], the exceptions of
    [build_prepared_icon], the accuracy of the crop side, and the script as a
    process. *)

From Stdlib Require Import ZArith QArith Qround Qpower Lia Lqa Bool List String.
From Stdlib Require Import Floats.SpecFloat.
Import ListNotations.
Open Scope Z_scope.

(** ** Binary64 *)

Definition prec : Z := 53.
Definition emax : Z := 1024.
Definition float : Type := spec_float.

(** Conversion of an integer to the nearest float. *)
Definition Z2F (n : Z) : float := binary_normalize prec emax n 0 false.

Definition float_zero : float := S754_zero false.
Definition float_one : float := S754_finite false 4503599627370496 (-52).

(** The literal [0.5], the default ratio [0.64] (the double nearest to 64/100)
    and the smallest positive double, [5e-324]. *)
Definition float_half : float := S754_finite false 4503599627370496 (-53).
Definition default_fill_ratio : float := S754_finite false 5764607523034235 (-53).
Definition float_tiny : float := S754_finite false 1 (-1074).

(** [2^-970], about [1.0e-292]. *)
Definition float_2m970 : float := S754_finite false 4503599627370496 (-1022).

(** The double nearest to 1/3. *)
Definition float_third : float := S754_finite false 6004799503160661 (-54).

Definition is_finite (f : float) : bool :=
  match f with
  | S754_finite _ _ _ | S754_zero _ => true
  | _ => false
  end.

Definition is_zero (f : float) : bool :=
  match f with
  | S754_zero _ => true
  | _ => false
  end.

(** *** Real value of a float, and rounding on the rationals *)

Definition bpow (e : Z) : Q := (2 ^ e)%Q.

Definition B2Q (f : float) : Q :=
  match f with
  | S754_finite s m e => (inject_Z (cond_Zopp s (Zpos m)) * bpow e)%Q
  | _ => 0%Q
  end.

(** Nearest integer, ties to the even one. *)
Definition rne_Q (x : Q) : Z :=
  let f := Qfloor x in
  match (x - inject_Z f ?= 1 # 2)%Q with
  | Lt => f
  | Eq => if Z.even f then f else f + 1
  | Gt => f + 1
  end.

Definition fexp64 (k : Z) : Z := fexp prec emax k.

(** [X] lies in the binade [[2^(k-1), 2^k)]. *)
Definition in_binade (k : Z) (X : Q) : Prop := (bpow (k - 1) <= X < bpow k)%Q.

(** [X] rounded to a multiple of the unit in the last place of binade [k]. *)
Definition rnd_at (k : Z) (X : Q) : Q :=
  (inject_Z (rne_Q (X / bpow (fexp64 k))) * bpow (fexp64 k))%Q.

(** Position of a real [x] with respect to a shift record: the mantissa is
    the floor of [x], the round bit says whether [x] reached the midpoint, the
    sticky bit whether anything lies beyond the round bit. *)
Definition inb (mrs : shr_record) (x : Q) : Prop :=
  let m := inject_Z (shr_m mrs) in
  match shr_r mrs, shr_s mrs with
  | false, false => (x == m)%Q
  | false, true => (m < x < m + (1 # 2))%Q
  | true, false => (x == m + (1 # 2))%Q
  | true, true => (m + (1 # 2) < x < m + 1)%Q
  end.

(** The float that an operation returns for the rounded magnitude [v] with
    sign [s]: zero, a finite float of that value, or infinity on overflow. *)
Inductive describes (s : bool) (v : Q) : float -> Prop :=
  | describes_zero : (v == 0)%Q -> describes s v (S754_zero s)
  | describes_finite (m : positive) (e : Z) :
      (v == inject_Z (Zpos m) * bpow e)%Q -> (v < bpow emax)%Q ->
      describes s v (S754_finite s m e)
  | describes_inf : (bpow emax <= v)%Q -> describes s v (S754_infinity s).

(** ** Python: exceptions and numeric built-ins *)

Inductive exn : Type :=
  | OverflowError
  | ValueError
  | ZeroDivisionError
  | OSError.

Inductive result (A : Type) : Type :=
  | Ok (a : A)
  | Raise (e : exn).

Arguments Ok {A} a.
Arguments Raise {A} e.

Definition bind {A B : Type} (r : result A) (f : A -> result B) : result B :=
  match r with
  | Ok a => f a
  | Raise e => Raise e
  end.

Notation "x <- c1 ;; c2" := (bind c1 (fun x => c2))
  (at level 61, c1 at next level, right associativity).

(** [float(n)] for an integer [n]: the nearest double, [OverflowError] when
    there is none. *)
Definition float_of_int (n : Z) : result float :=
  match Z2F n with
  | S754_infinity _ => Raise OverflowError
  | f => Ok f
  end.

(** [x / y] on floats: only a zero divisor raises. *)
Definition float_truediv (x y : float) : result float :=
  if is_zero y then Raise ZeroDivisionError else Ok (SFdiv prec emax x y).

(** [n * y] and [n / y] for an integer [n] and a float [y]. *)
Definition int_mul_float (n : Z) (y : float) : result float :=
  x <- float_of_int n ;; Ok (SFmul prec emax x y).

Definition int_div_float (n : Z) (y : float) : result float :=
  x <- float_of_int n ;; float_truediv x y.

(** [a / b] for two integers.  CPython rounds the exact quotient once; for
    operands below [2^53] in magnitude, as all operands are here, that is the
    float quotient of the converted operands. *)
Definition int_truediv (a b : Z) : result float :=
  x <- float_of_int a ;; y <- float_of_int b ;; float_truediv x y.

(** [int(f)]: truncation toward zero. *)
Definition py_int (f : float) : result Z :=
  match f with
  | S754_nan => Raise ValueError
  | S754_infinity _ => Raise OverflowError
  | S754_zero _ => Ok 0
  | S754_finite s m e => Ok (cond_Zopp s (Z.shiftl (Zpos m) e))
  end.

(** Magnitude [m * 2^e] rounded to the nearest integer, ties to even. *)
Definition round_half_even (m : positive) (e : Z) : Z :=
  if 0 <=? e then Zpos m * 2 ^ e
  else
    let q := Zpos m / 2 ^ (- e) in
    let r := Zpos m mod 2 ^ (- e) in
    match 2 * r ?= 2 ^ (- e) with
    | Lt => q
    | Eq => if Z.even q then q else q + 1
    | Gt => q + 1
    end.

(** [round(f)] with one argument: an integer. *)
Definition py_round (f : float) : result Z :=
  match f with
  | S754_nan => Raise ValueError
  | S754_infinity _ => Raise OverflowError
  | S754_zero _ => Ok 0
  | S754_finite s m e => Ok (cond_Zopp s (round_half_even m e))
  end.

(** ** Pillow: what the script uses of an image *)

(** A box is [(left, top, right, bottom)]. *)
Definition box : Type := (Z * Z * Z * Z)%type.
Definition size : Type := (Z * Z)%type.

(** An image after [convert("RGBA")]: its size and what [getbbox] returns on
    its alpha channel ([None] when every pixel is fully transparent). *)
Record Image : Type := { im_width : Z; im_height : Z; im_bbox : option box }.

Definition box_eqb (a b : box) : bool :=
  let '(l1, t1, r1, b1) := a in
  let '(l2, t2, r2, b2) := b in
  (l1 =? l2) && (t1 =? t2) && (r1 =? r2) && (b1 =? b2).

(** [Image.crop] refuses a box whose right or bottom precedes its left or top;
    the result has the size of the box.  [Image.resize] returns an image of
    the size asked for.  A result image is known here by its size. *)
Definition pil_crop (b : box) : result size :=
  let '(l, t, r, bt) := b in
  if (r <? l) || (bt <? t) then Raise ValueError else Ok (r - l, bt - t).

Definition pil_resize (target : size) (source : size) : result size := Ok target.

(** ** The script *)

Definition centered_square_crop_bounds (width height side : Z) : box :=
  let left := (width - side) / 2 in
  let top := (height - side) / 2 in
  (left, top, left + side, top + side).

(** The two lines shared by the transparent and the opaque branch:
    [crop_side = int(min_dim * fill_ratio)], then the centered square of side
    [max(1, crop_side)]. *)
Definition fixed_ratio_crop (width height : Z) (fill_ratio : float) : result box :=
  let min_dim := Z.min width height in
  p <- int_mul_float min_dim fill_ratio ;;
  crop_side <- py_int p ;;
  Ok (centered_square_crop_bounds width height (Z.max 1 crop_side)).

(** The crop box of [build_prepared_icon], from the conversion to RGBA to the
    assignment of [crop_box]. *)
Definition crop_box_of (image : Image) (fill_ratio : float) : result box :=
  let width := im_width image in
  let height := im_height image in
  let min_dim := Z.min width height in
  match im_bbox image with
  | None => fixed_ratio_crop width height fill_ratio
  | Some (left', top', right', bottom') =>
      let content_w := Z.max 1 (right' - left') in
      let content_h := Z.max 1 (bottom' - top') in
      let content_side := Z.max content_w content_h in
      if box_eqb (left', top', right', bottom') (0, 0, width, height) then
        fixed_ratio_crop width height fill_ratio
      else
        q <- int_div_float content_side fill_ratio ;;
        target_side <- py_int q ;;
        let crop_side := Z.max content_side (Z.min min_dim target_side) in
        center_x <- int_truediv (left' + right') 2 ;;
        center_y <- int_truediv (top' + bottom') 2 ;;
        half_x <- int_truediv crop_side 2 ;;
        crop_left <- py_round (SFsub prec emax center_x half_x) ;;
        half_y <- int_truediv crop_side 2 ;;
        crop_top <- py_round (SFsub prec emax center_y half_y) ;;
        let crop_left := Z.max 0 (Z.min (width - crop_side) crop_left) in
        let crop_top := Z.max 0 (Z.min (height - crop_side) crop_top) in
        Ok (crop_left, crop_top, crop_left + crop_side, crop_top + crop_side)
  end.

Definition build_prepared_icon (image : Image) (fill_ratio : float) : result size :=
  crop_box <- crop_box_of image fill_ratio ;;
  cropped <- pil_crop crop_box ;;
  pil_resize (1024, 1024) cropped.

(** What a run of [main] leaves: the value it returns or the exception that
    escapes it, and the lines it printed on each stream. *)
Record outcome : Type :=
  { returned : result Z; stdout : list string; stderr : list string }.

Definition raised (e : exn) : outcome :=
  {| returned := Raise e; stdout := []; stderr := [] |}.

Definition usage_message : string :=
  "Usage: make_icns.py <input_png> <output_icns> [fill_ratio]".

Definition icns_sizes : list size :=
  [(16, 16); (32, 32); (64, 64); (128, 128); (256, 256); (512, 512); (1024, 1024)].

Section Script.

(** The world [main] runs in: [str(Path(p))], [Path(p).exists()], [float(s)]
    ([None] when it raises [ValueError]), [Path(p).parent.mkdir(...)],
    [Image.open] and [Image.save]. *)
Variable path_str : string -> string.
Variable path_exists : string -> bool.
Variable float_of_string : string -> option float.
Variable mkdir_parents : string -> result unit.
Variable image_open : string -> result Image.
Variable save_icns : size -> string -> list size -> result unit.

Definition main (argv : list string) : outcome :=
  let argc := List.length argv in
  if negb ((argc =? 3)%nat || (argc =? 4)%nat) then
    {| returned := Ok 1; stdout := []; stderr := [usage_message] |}
  else
    let input_path := List.nth 1 argv EmptyString in
    let output_path := List.nth 2 argv EmptyString in
    match (if (argc =? 4)%nat then float_of_string (List.nth 3 argv EmptyString)
           else Some default_fill_ratio) with
    | None => raised ValueError
    | Some fill_ratio =>
        if negb (path_exists input_path) then
          {| returned := Ok 1; stdout := [];
             stderr := [String.append "Icon source not found: " (path_str input_path)] |}
        else
          match mkdir_parents output_path with
          | Raise e => raised e
          | Ok _ =>
              match image_open input_path with
              | Raise e => raised e
              | Ok source =>
                  match build_prepared_icon source fill_ratio with
                  | Raise e => raised e
                  | Ok prepared =>
                      match save_icns prepared output_path icns_sizes with
                      | Raise e => raised e
                      | Ok _ =>
                          {| returned := Ok 0;
                             stdout := [String.append "Wrote icon: " (path_str output_path)];
                             stderr := [] |}
                      end
                  end
              end
          end
    end.

(** The fill ratio [main] works with: [float(sys.argv[3])] when there is a
    third argument, [0.64] otherwise. *)
Definition fill_ratio_argument (argv : list string) : option float :=
  if (List.length argv =? 4)%nat then float_of_string (List.nth 3 argv EmptyString)
  else Some default_fill_ratio.

End Script.

(** ** Vocabulary of the specification *)

(** [0 < r <= 1] as Python evaluates it on a float. *)
Definition in_0_1 (r : float) : bool :=
  valid_binary prec emax r && SFltb float_zero r && SFleb r float_one.

(** A bounding box inside the image.  [getbbox] never returns an empty box;
    boxes of zero width or height are admitted all the same, since the script
    guards against them. *)
Definition wf_bbox (width height : Z) (b : box) : bool :=
  let '(l, t, r, bt) := b in
  (0 <=? l) && (l <=? r) && (r <=? width) && (0 <=? t) && (t <=? bt) && (bt <=? height).

(** A non-empty image whose sides convert to floats without rounding, with
    its bounding box inside it. *)
Definition wf_image (image : Image) : bool :=
  (0 <? im_width image) && (im_width image <? 2 ^ 52) &&
  (0 <? im_height image) && (im_height image <? 2 ^ 52) &&
  match im_bbox image with
  | None => true
  | Some b => wf_bbox (im_width image) (im_height image) b
  end.

Definition full_box (image : Image) : box := (0, 0, im_width image, im_height image).

(** Partial content: some pixels are visible and their bounding box is not
    the whole image. *)
Definition partial_content (image : Image) : bool :=
  match im_bbox image with
  | None => false
  | Some b => negb (box_eqb b (full_box image))
  end.

Definition content_side_of (b : box) : Z :=
  let '(l, t, r, bt) := b in Z.max (Z.max 1 (r - l)) (Z.max 1 (bt - t)).

Definition min_dim_of (image : Image) : Z := Z.min (im_width image) (im_height image).

(** The content fits a square of side [min_dim]; blank and opaque images
    always count as fitting. *)
Definition content_fits (image : Image) : bool :=
  match im_bbox image with
  | None => true
  | Some b => box_eqb b (full_box image) || (content_side_of b <=? min_dim_of image)
  end.

Definition box_width (b : box) : Z := let '(l, _, r, _) := b in r - l.
Definition box_height (b : box) : Z := let '(_, t, _, bt) := b in bt - t.

(** [max(1, floor(min_dim * fill_ratio))], the product being the float one. *)
Definition fixed_ratio_side (image : Image) (fill_ratio : float) : Z :=
  Z.max 1 (Qfloor (B2Q (SFmul prec emax (Z2F (min_dim_of image)) fill_ratio))).

(** The float [content_side / fill_ratio]. *)
Definition target_quotient (bb : box) (fill_ratio : float) : float :=
  SFdiv prec emax (Z2F (content_side_of bb)) fill_ratio.

(** "[x] clamped to at least [lo] and at most [hi]", as the specification
    words it. *)
Definition clamp_between (lo hi x : Z) : Z :=
  if x <? lo then lo else if hi <? x then hi else x.

(** *** Sample inputs *)

(** 200 x 100, opaque content in the pixel rectangle (50,20)-(150,80). *)
Definition banner_image : Image :=
  {| im_width := 200; im_height := 100; im_bbox := Some (50, 20, 150, 80) |}.

(** 200 x 100, content across the full width of rows 20 to 79. *)
Definition wide_image : Image :=
  {| im_width := 200; im_height := 100; im_bbox := Some (0, 20, 200, 80) |}.

(** 400 x 300, a small mark of 50 x 40 pixels. *)
Definition mark_image : Image :=
  {| im_width := 400; im_height := 300; im_bbox := Some (100, 100, 150, 140) |}.

Definition blank_image : Image :=
  {| im_width := 200; im_height := 100; im_bbox := None |}.

Definition opaque_image : Image :=
  {| im_width := 200; im_height := 100; im_bbox := Some (0, 0, 200, 100) |}.

Definition small_blank_image : Image :=
  {| im_width := 6; im_height := 6; im_bbox := None |}.

(** 100 x 100 and fully opaque. *)
Definition square_image : Image :=
  {| im_width := 100; im_height := 100; im_bbox := Some (0, 0, 100, 100) |}.

Definition bad_ratio_argv : list string :=
  ["make_icns.py"; "missing.png"; "out.icns"; "abc"]%string.

(** *** Vocabulary of the further properties *)

(** The literals [1.5], [3.0] and [-0.5]. *)
Definition float_one_and_half : float := S754_finite false 6755399441055744 (-52).
Definition float_three : float := S754_finite false 6755399441055744 (-51).
Definition float_minus_half : float := S754_finite true 4503599627370496 (-53).

Definition is_nan (f : float) : bool :=
  match f with
  | S754_nan => true
  | _ => false
  end.

(** The sign bit of a float that is not a NaN. *)
Definition sign_of (f : float) : option bool :=
  match f with
  | S754_zero s | S754_infinity s | S754_finite s _ _ => Some s
  | S754_nan => None
  end.

Definition is_infinite (f : float) : bool :=
  match f with
  | S754_infinity _ => true
  | _ => false
  end.

(** The float that [int] receives: the product [min_dim * fill_ratio] for a
    blank or an opaque image, the quotient [content_side / fill_ratio] for
    partial content. *)
Definition int_argument (image : Image) (fill_ratio : float) : float :=
  match im_bbox image with
  | None => SFmul prec emax (Z2F (min_dim_of image)) fill_ratio
  | Some bb =>
      if box_eqb bb (full_box image) then
        SFmul prec emax (Z2F (min_dim_of image)) fill_ratio
      else target_quotient bb fill_ratio
  end.

(** The status the process ends with under [raise SystemExit(main())]: the
    value [main] returned, or 1 when an exception escaped it. *)
Definition exit_status (o : outcome) : Z :=
  match returned o with
  | Ok n => n
  | Raise _ => 1
  end.

(** 400 x 300, a square mark of 50 x 50 pixels. *)
Definition square_mark_image : Image :=
  {| im_width := 400; im_height := 300; im_bbox := Some (100, 100, 150, 150) |}.

(** 400 x 300, a mark of 50 x 40 pixels in the top left corner. *)
Definition corner_image : Image :=
  {| im_width := 400; im_height := 300; im_bbox := Some (0, 0, 50, 40) |}.

(** * Binary64 arithmetic

    The facts about [SpecFloat] that the script's arithmetic rests on: what a
    rounded operation returns in terms of the exact rational result. *)

(** ** Powers of two and digit counts *)

Lemma bpow_pos e : (0 < bpow e)%Q.
Proof. apply Qpower_0_lt. reflexivity. Qed.

Lemma bpow_nz e : ~ (bpow e == 0)%Q.
Proof. pose proof (bpow_pos e). intro H0. rewrite H0 in H. discriminate. Qed.

Lemma bpow_add a b : (bpow (a + b) == bpow a * bpow b)%Q.
Proof. apply Qpower_plus. discriminate. Qed.

Lemma bpow_le a b : a <= b -> (bpow a <= bpow b)%Q.
Proof. intro H. apply Qpower_le_compat_l; [exact H | discriminate]. Qed.

Lemma bpow_lt a b : a < b -> (bpow a < bpow b)%Q.
Proof. intro H. apply Qpower_lt_compat_l; [exact H | reflexivity]. Qed.

Lemma bpow_Z n : 0 <= n -> (bpow n == inject_Z (2 ^ n))%Q.
Proof. intro H. unfold bpow. rewrite Zpower_Qpower by exact H. reflexivity. Qed.

Lemma bpow_sub a b : (bpow (a - b) == bpow a / bpow b)%Q.
Proof. apply Qpower_minus. discriminate. Qed.

Lemma inject_Z_pos (z : Z) : 0 < z -> (0 < inject_Z z)%Q.
Proof. intro H. change 0%Q with (inject_Z 0). rewrite <- Zlt_Qlt. exact H. Qed.

Lemma pos_value_positive (m : positive) (e : Z) : (0 < inject_Z (Zpos m) * bpow e)%Q.
Proof. apply Qmult_lt_0_compat; [apply inject_Z_pos; lia | apply bpow_pos]. Qed.

(** [digits2_pos m] is the number of binary digits of [m]. *)
Lemma digits2_spec (m : positive) :
  2 ^ (Zpos (digits2_pos m) - 1) <= Zpos m < 2 ^ Zpos (digits2_pos m).
Proof.
  induction m as [p IH | p IH |]; cbn [digits2_pos].
  - rewrite Pos2Z.inj_succ.
    replace (Z.succ (Zpos (digits2_pos p)) - 1) with (Z.succ (Zpos (digits2_pos p) - 1)) by lia.
    rewrite !Z.pow_succ_r by lia. lia.
  - rewrite Pos2Z.inj_succ.
    replace (Z.succ (Zpos (digits2_pos p)) - 1) with (Z.succ (Zpos (digits2_pos p) - 1)) by lia.
    rewrite !Z.pow_succ_r by lia. lia.
  - simpl. lia.
Qed.

Lemma digits2_unique (m : positive) (k : Z) :
  2 ^ (k - 1) <= Zpos m < 2 ^ k -> Zpos (digits2_pos m) = k.
Proof.
  intros [Hlo Hhi]. pose proof (digits2_spec m) as [Dlo Dhi].
  set (d := Zpos (digits2_pos m)) in *.
  assert (0 < k).
  { destruct (Z_lt_le_dec 0 k) as [Hk | Hk]; auto. exfalso.
    assert (2 ^ k <= 1); [| lia].
    destruct (Z.eq_dec k 0) as [-> | Hk0]; [simpl; lia |].
    rewrite Z.pow_neg_r by lia. lia. }
  destruct (Z.lt_trichotomy d k) as [Hlt | [Heq | Hgt]]; auto; exfalso.
  - assert (2 ^ d <= 2 ^ (k - 1)) by (apply Z.pow_le_mono_r; lia). lia.
  - assert (2 ^ k <= 2 ^ (d - 1)) by (apply Z.pow_le_mono_r; lia). lia.
Qed.

(** Rounding to the nearest integer moves a value by at most one half. *)
Lemma rne_Q_bounds x : (x - (1#2) <= inject_Z (rne_Q x) <= x + (1#2))%Q.
Proof.
  unfold rne_Q.
  pose proof (Qfloor_le x) as Hlo. pose proof (Qlt_floor x) as Hhi.
  rewrite inject_Z_plus in Hhi. change (inject_Z 1) with 1%Q in Hhi.
  destruct (Qcompare_spec (x - inject_Z (Qfloor x)) (1#2)) as [He | Hl | Hg].
  - destruct (Z.even (Qfloor x)); [| rewrite inject_Z_plus; change (inject_Z 1) with 1%Q]; lra.
  - lra.
  - rewrite inject_Z_plus; change (inject_Z 1) with 1%Q. lra.
Qed.

(** ** Nearest integers; right shifts with round and sticky bits *)

Lemma Qfloor_unique (x : Q) (z : Z) :
  (inject_Z z <= x < inject_Z z + 1)%Q -> Qfloor x = z.
Proof.
  intros [Hlo Hhi].
  pose proof (Qfloor_le x) as Flo. pose proof (Qlt_floor x) as Fhi.
  rewrite inject_Z_plus in Fhi. change (inject_Z 1) with 1%Q in Fhi.
  assert (inject_Z z < inject_Z (Qfloor x) + 1)%Q as H1 by lra.
  assert (inject_Z (Qfloor x) < inject_Z z + 1)%Q as H2 by lra.
  change 1%Q with (inject_Z 1) in H1, H2. rewrite <- inject_Z_plus in H1, H2.
  rewrite <- Zlt_Qlt in H1, H2. lia.
Qed.

#[global] Instance rne_Q_comp : Proper (Qeq ==> eq) rne_Q.
Proof.
  intros x y Hxy. unfold rne_Q. rewrite (Qfloor_comp _ _ Hxy).
  assert ((x - inject_Z (Qfloor y) ?= 1 # 2) = (y - inject_Z (Qfloor y) ?= 1 # 2))%Q as ->.
  { apply Qcompare_comp; [rewrite Hxy |]; reflexivity. }
  reflexivity.
Qed.

Lemma rne_Q_Z (z : Z) : rne_Q (inject_Z z) = z.
Proof.
  unfold rne_Q. rewrite Qfloor_Z.
  destruct (Qcompare_spec (inject_Z z - inject_Z z) (1#2)) as [He | Hl | Hg]; try lra.
  reflexivity.
Qed.

Lemma rne_Q_mono (x y : Q) : (x <= y)%Q -> rne_Q x <= rne_Q y.
Proof.
  intro Hxy.
  pose proof (Qfloor_resp_le _ _ Hxy) as Hf.
  pose proof (Qfloor_le x) as Xlo. pose proof (Qlt_floor x) as Xhi.
  pose proof (Qfloor_le y) as Ylo. pose proof (Qlt_floor y) as Yhi.
  rewrite inject_Z_plus in Xhi, Yhi. change (inject_Z 1) with 1%Q in Xhi, Yhi.
  unfold rne_Q.
  destruct (Z.eq_dec (Qfloor x) (Qfloor y)) as [E | NE].
  - rewrite E in *.
    destruct (Qcompare_spec (x - inject_Z (Qfloor y)) (1#2));
    destruct (Qcompare_spec (y - inject_Z (Qfloor y)) (1#2));
    try destruct (Z.even (Qfloor y)); try lia; lra.
  - assert (Qfloor x + 1 <= Qfloor y) by lia.
    destruct (Qcompare_spec (x - inject_Z (Qfloor x)) (1#2));
    destruct (Qcompare_spec (y - inject_Z (Qfloor y)) (1#2));
    try destruct (Z.even (Qfloor x)); try destruct (Z.even (Qfloor y)); lia.
Qed.

Lemma inb_comp mrs x y : (x == y)%Q -> inb mrs x -> inb mrs y.
Proof.
  unfold inb. destruct (shr_r mrs), (shr_s mrs); intros E H; rewrite <- E; exact H.
Qed.

Lemma inb_range mrs x : inb mrs x -> (inject_Z (shr_m mrs) <= x < inject_Z (shr_m mrs) + 1)%Q.
Proof. unfold inb. destruct (shr_r mrs), (shr_s mrs); intros; lra. Qed.

Lemma inb_floor mrs x : inb mrs x -> Qfloor x = shr_m mrs.
Proof. intro H. apply Qfloor_unique, inb_range, H. Qed.

Lemma inject_Z_xO p : (inject_Z (Zpos p~0) == 2 * inject_Z (Zpos p))%Q.
Proof. rewrite Pos2Z.inj_xO, inject_Z_mult. reflexivity. Qed.

Lemma inject_Z_xI p : (inject_Z (Zpos p~1) == 2 * inject_Z (Zpos p) + 1)%Q.
Proof. rewrite Pos2Z.inj_xI, inject_Z_plus, inject_Z_mult. reflexivity. Qed.

(** One shift to the right halves the value and keeps track of its position. *)
Lemma shr_1_inb mrs x :
  0 <= shr_m mrs -> inb mrs x -> inb (shr_1 mrs) (x / 2) /\ 0 <= shr_m (shr_1 mrs).
Proof.
  destruct mrs as [m r s]. unfold inb. cbn [shr_m shr_r shr_s].
  intros Hm H.
  unfold Qdiv. change (/ 2)%Q with (1 # 2)%Q.
  destruct m as [| p | p]; [| | lia].
  - change (inject_Z 0) with 0%Q in *.
    destruct r, s; cbv iota in H; cbn; (split; [| lia]); change (inject_Z 0) with 0%Q;
      try lra.
    all: try (rewrite H; reflexivity).
  - destruct p as [p | p |]; destruct r, s; cbv iota in H;
      cbn [shr_1 shr_m shr_r shr_s orb];
      try rewrite inject_Z_xI in H; try rewrite inject_Z_xO in H;
      change (inject_Z 1) with 1%Q in *; change (inject_Z 0) with 0%Q;
      (split; [| lia]); try lra.
    all: rewrite H; ring.
Qed.

Lemma iter_shr_1_inb (p : positive) : forall mrs x,
  0 <= shr_m mrs -> inb mrs x ->
  inb (iter_pos shr_1 p mrs) (x / bpow (Zpos p)) /\ 0 <= shr_m (iter_pos shr_1 p mrs).
Proof.
  induction p as [p IH | p IH |]; intros mrs x Hm H; cbn [iter_pos].
  - destruct (shr_1_inb _ _ Hm H) as [H1 M1].
    destruct (IH _ _ M1 H1) as [H2 M2].
    destruct (IH _ _ M2 H2) as [H3 M3].
    split; [| exact M3].
    apply (inb_comp _ _ (x / bpow (Zpos p~1))%Q) in H3; [exact H3 |].
    rewrite Pos2Z.inj_xI. replace (2 * Zpos p + 1) with (Zpos p + Zpos p + 1) by lia.
    rewrite !bpow_add. change (bpow 1) with 2%Q. field. apply bpow_nz.
  - destruct (IH _ _ Hm H) as [H2 M2].
    destruct (IH _ _ M2 H2) as [H3 M3].
    split; [| exact M3].
    apply (inb_comp _ _ (x / bpow (Zpos p~0))%Q) in H3; [exact H3 |].
    rewrite Pos2Z.inj_xO. replace (2 * Zpos p) with (Zpos p + Zpos p) by lia.
    rewrite !bpow_add. field. apply bpow_nz.
  - apply shr_1_inb; assumption.
Qed.

Lemma shr_inb mrs x e n :
  0 <= n -> 0 <= shr_m mrs -> inb mrs x ->
  inb (fst (shr mrs e n)) (x / bpow n) /\ 0 <= shr_m (fst (shr mrs e n)) /\
  snd (shr mrs e n) = e + n.
Proof.
  intros Hn Hm H. destruct n as [| p | p]; [| | lia]; cbn [shr fst snd].
  - repeat split; [| exact Hm | lia].
    apply (inb_comp _ x); [| exact H].
    change (bpow 0) with 1%Q. field.
  - destruct (iter_shr_1_inb p mrs x Hm H) as [H1 M1]. auto.
Qed.

(** On a shift record that locates [x], [round_nearest_even] is [rne_Q x]. *)
Lemma round_nearest_even_inb mrs x :
  inb mrs x -> round_nearest_even (shr_m mrs) (loc_of_shr_record mrs) = rne_Q x.
Proof.
  intro H. unfold rne_Q. rewrite (inb_floor _ _ H).
  destruct mrs as [m r s]. unfold inb in H. cbn [shr_m shr_r shr_s] in *.
  destruct r, s; cbv iota in H; cbn [loc_of_shr_record round_nearest_even];
    destruct (Qcompare_spec (x - inject_Z m) (1#2)); try lra; reflexivity.
Qed.

Lemma inb_exact (m : Z) : inb (shr_record_of_loc m loc_Exact) (inject_Z m).
Proof. unfold inb. cbn. reflexivity. Qed.

Lemma shr_m_of_loc m l : shr_m (shr_record_of_loc m l) = m.
Proof. destruct l as [| []]; reflexivity. Qed.

(** ** The rounding step shared by all operations *)

Lemma fexp64_eq k : fexp64 k = Z.max (k - 53) (-1074).
Proof. reflexivity. Qed.

Lemma shr_nonpos mrs e n : n <= 0 -> shr mrs e n = (mrs, e).
Proof. intro H. destruct n; [reflexivity | lia | reflexivity]. Qed.

Lemma Qmult_bpow_le x y e : (x <= y)%Q -> (x * bpow e <= y * bpow e)%Q.
Proof. intro H. apply Qmult_le_compat_r; [exact H | apply Qlt_le_weak, bpow_pos]. Qed.

Lemma Qmult_bpow_lt x y e : (x < y)%Q -> (x * bpow e < y * bpow e)%Q.
Proof. intro H. apply Qmult_lt_compat_r; [apply bpow_pos | exact H]. Qed.

Lemma Qdiv_bpow_le x y e : (x <= y)%Q -> (x / bpow e <= y / bpow e)%Q.
Proof.
  intro H. unfold Qdiv. apply Qmult_le_compat_r; [exact H |].
  apply Qlt_le_weak, Qinv_lt_0_compat, bpow_pos.
Qed.

Lemma Qdiv_bpow_lt x y e : (x < y)%Q -> (x / bpow e < y / bpow e)%Q.
Proof.
  intro H. unfold Qdiv. apply Qmult_lt_compat_r; [| exact H].
  apply Qinv_lt_0_compat, bpow_pos.
Qed.

Lemma bpow_div a b : (bpow a / bpow b == bpow (a - b))%Q.
Proof. symmetry. apply bpow_sub. Qed.

Lemma digits_binade (p : positive) (x : Q) (ex : Z) :
  (inject_Z (Zpos p) <= x < inject_Z (Zpos p) + 1)%Q ->
  in_binade (Zpos (digits2_pos p) + ex) (x * bpow ex).
Proof.
  intros [Hlo Hhi]. pose proof (digits2_spec p) as [Dlo Dhi].
  set (d := Zpos (digits2_pos p)) in *.
  assert (0 < d) by (subst d; lia).
  assert (bpow (d - 1) <= x)%Q as L.
  { rewrite bpow_Z by lia. apply Qle_trans with (2 := Hlo). rewrite <- Zle_Qle. exact Dlo. }
  assert (x < bpow d)%Q as U.
  { rewrite bpow_Z by lia. apply Qlt_le_trans with (1 := Hhi).
    change 1%Q with (inject_Z 1). rewrite <- inject_Z_plus, <- Zle_Qle. lia. }
  split.
  - replace (d + ex - 1) with ((d - 1) + ex) by lia. rewrite bpow_add.
    apply Qmult_bpow_le, L.
  - rewrite bpow_add. apply Qmult_bpow_lt, U.
Qed.

Lemma rne_Q_small (x : Q) : (0 <= x < 1 # 2)%Q -> rne_Q x = 0.
Proof.
  intros [Hlo Hhi]. pose proof (rne_Q_bounds x) as [Blo Bhi].
  assert (inject_Z (rne_Q x) < inject_Z 1)%Q as H1 by (change (inject_Z 1) with 1%Q; lra).
  assert (inject_Z (-1) < inject_Z (rne_Q x))%Q as H2 by (change (inject_Z (-1)) with (-1)%Q; lra).
  rewrite <- Zlt_Qlt in H1, H2. lia.
Qed.

(** What [binary_round_aux] returns: for a positive mantissa [mx], a location
    [lx] telling where the exact value [x] lies in [[mx, mx + 1)], and an
    exponent no coarser than the format's, the result describes [x * 2^ex]
    rounded to nearest even in its binade: zero on underflow, infinity on
    overflow. *)
Theorem binary_round_aux_spec (s : bool) (mx ex : Z) (lx : location) (x : Q) :
  0 < mx ->
  inb (shr_record_of_loc mx lx) x ->
  ex <= fexp64 (Zdigits2 mx + ex) ->
  in_binade (Zdigits2 mx + ex) (x * bpow ex) /\
  describes s (rnd_at (Zdigits2 mx + ex) (x * bpow ex))
    (binary_round_aux prec emax s mx ex lx).
Proof.
  intros Hmx Hin Hex.
  destruct mx as [| p | p]; try lia. cbn [Zdigits2] in *.
  set (d := Zpos (digits2_pos p)) in *.
  set (k := d + ex) in *. set (X := (x * bpow ex)%Q).
  assert (in_binade k X) as HB.
  { apply digits_binade. pose proof (inb_range _ _ Hin) as R.
    rewrite shr_m_of_loc in R. exact R. }
  split; [exact HB |].
  destruct HB as [Xlo Xhi].
  unfold binary_round_aux, shr_fexp. cbn [Zdigits2]. fold d. fold k. fold (fexp64 k).
  set (e := fexp64 k) in *.
  assert (e = Z.max (k - 53) (-1074)) as He by (subst e; apply fexp64_eq).
  assert (0 <= shr_m (shr_record_of_loc (Zpos p) lx)) as Hm0 by (rewrite shr_m_of_loc; lia).
  destruct (shr_inb _ x ex (e - ex) ltac:(lia) Hm0 Hin) as (I1 & M1 & E1).
  destruct (shr (shr_record_of_loc (Zpos p) lx) ex (e - ex)) as [mrs' e'].
  cbn [fst snd] in I1, M1, E1.
  assert (e' = e) as -> by lia. clear E1.
  rewrite (round_nearest_even_inb _ _ I1).
  assert (x / bpow (e - ex) == X / bpow e)%Q as EQ.
  { subst X. rewrite bpow_sub. field. split; apply bpow_nz. }
  rewrite (rne_Q_comp _ _ EQ).
  unfold rnd_at. fold e.
  set (m1 := rne_Q (X / bpow e)).
  assert (0 < X)%Q as Xpos by (apply Qlt_le_trans with (2 := Xlo), bpow_pos).
  assert (0 <= m1) as M1lo.
  { subst m1. rewrite <- (rne_Q_Z 0). apply rne_Q_mono.
    change (inject_Z 0) with 0%Q. apply Qle_shift_div_l; [apply bpow_pos |].
    rewrite Qmult_0_l. lra. }
  assert (X / bpow e < bpow (k - e))%Q as Yhi.
  { rewrite <- bpow_div. apply Qdiv_bpow_lt, Xhi. }
  assert (bpow (k - 1 - e) <= X / bpow e)%Q as Ylo.
  { rewrite <- bpow_div. apply Qdiv_bpow_le, Xlo. }
  assert (e <= k -> m1 <= 2 ^ (k - e)) as M1hi.
  { intro Hk. subst m1. rewrite <- (rne_Q_Z (2 ^ (k - e))). apply rne_Q_mono.
    rewrite <- bpow_Z by lia. lra. }
  assert (k < e -> m1 = 0) as M1zero.
  { intro Hk. subst m1. apply rne_Q_small. split.
    - apply Qle_trans with (2 := Ylo). apply Qlt_le_weak, bpow_pos.
    - apply Qlt_le_trans with (1 := Yhi). change (1 # 2)%Q with (bpow (-1)).
      apply bpow_le. lia. }
  assert (e = k - 53 -> 2 ^ 52 <= m1) as M1norm.
  { intro Hk. subst m1. rewrite <- (rne_Q_Z (2 ^ 52)). apply rne_Q_mono.
    rewrite <- bpow_Z by lia. replace 52 with (k - 1 - e) by lia. exact Ylo. }
  clearbody m1.
  destruct m1 as [| q | q]; [| | lia].
  - (* the rounded mantissa vanishes *)
    rewrite shr_nonpos by (cbn [shr_m shr_record_of_loc Zdigits2]; fold (fexp64 (0 + e)); rewrite fexp64_eq; lia).
    cbn [shr_m shr_record_of_loc]. apply describes_zero.
    change (inject_Z 0) with 0%Q. ring.
  - cbn [shr_m shr_record_of_loc Zdigits2]. fold (fexp64 (Zpos (digits2_pos q) + e)).
    pose proof (digits2_spec q) as [Qlo Qhi].
    set (d1 := Zpos (digits2_pos q)) in *.
    assert (0 < d1) by (subst d1; lia).
    destruct (Z_le_gt_dec d1 53) as [Hd1 | Hd1].
    + rewrite shr_nonpos by (rewrite fexp64_eq; lia).
      cbn [shr_m]. fold prec.
      assert (Zpos q < 2 ^ 53) as Q53.
      { apply Z.lt_le_trans with (1 := Qhi). apply Z.pow_le_mono_r; lia. }
      destruct (Z.leb_spec e (emax - prec)) as [Hle | Hgt]; unfold emax, prec in *.
      * apply describes_finite; [reflexivity |]. unfold emax.
        apply Qlt_le_trans with (inject_Z (2 ^ 53) * bpow e)%Q.
        { apply Qmult_bpow_lt. rewrite <- Zlt_Qlt. exact Q53. }
        rewrite <- bpow_Z by lia. rewrite <- bpow_add. apply bpow_le. lia.
      * apply describes_inf. unfold emax.
        apply Qle_trans with (inject_Z (2 ^ 52) * bpow e)%Q.
        { rewrite <- bpow_Z by lia. rewrite <- bpow_add. apply bpow_le. lia. }
        apply Qmult_bpow_le. rewrite <- Zle_Qle. apply M1norm. lia.
    + (* rounding carried into a 54th digit: the mantissa is 2^53 *)
      assert (e <= k) as Hek by (destruct (Z_le_gt_dec e k); [assumption | specialize (M1zero ltac:(lia)); lia]).
      specialize (M1hi Hek).
      assert (2 ^ 53 <= 2 ^ (d1 - 1)) as P1 by (apply Z.pow_le_mono_r; lia).
      assert (k - e = 53) as Hke.
      { destruct (Z_le_gt_dec (k - e) 52) as [Hs | Hs]; [| lia].
        assert (2 ^ (k - e) <= 2 ^ 52) by (apply Z.pow_le_mono_r; lia).
        assert (2 ^ 52 < 2 ^ 53) by (apply Z.pow_lt_mono_r; lia). lia. }
      rewrite Hke in M1hi.
      assert (Zpos q = 2 ^ 53) as Hq by lia.
      assert (d1 = 54) as Hd54.
      { subst d1. apply digits2_unique. rewrite Hq.
        split; [apply Z.pow_le_mono_r | apply Z.pow_lt_mono_r]; lia. }
      rewrite Hd54, fexp64_eq.
      replace (Z.max (54 + e - 53) (-1074) - e) with 1 by lia.
      assert (q = 9007199254740992%positive) as -> by (apply Pos2Z.inj; rewrite Hq; reflexivity).
      cbn [shr shr_record_of_loc iter_pos shr_1 shr_m]. fold prec.
      destruct (Z.leb_spec (e + 1) (emax - prec)) as [Hle | Hgt]; unfold emax, prec in *.
      * apply describes_finite.
        { rewrite bpow_add. change (bpow 1) with 2%Q.
          change (inject_Z (Zpos 9007199254740992)) with (2 * inject_Z (Zpos 4503599627370496))%Q.
          ring. }
        unfold emax. change (Zpos 9007199254740992) with (2 ^ 53).
        rewrite <- bpow_Z by lia. rewrite <- bpow_add. apply bpow_lt. lia.
      * apply describes_inf. unfold emax.
        change (Zpos 9007199254740992) with (2 ^ 53).
        rewrite <- bpow_Z by lia. rewrite <- bpow_add. apply bpow_le. lia.
Qed.

(** ** Rounding is monotone and leaves representable values alone *)

Lemma bpow_lt_inv a b : (bpow a < bpow b)%Q -> a < b.
Proof. intro H. apply (Qpower_lt_compat_l_inv 2); [exact H | reflexivity]. Qed.

Lemma bpow_le_inv a b : (bpow a <= bpow b)%Q -> a <= b.
Proof. intro H. apply (Qpower_le_compat_l_inv 2); [exact H | reflexivity]. Qed.

Lemma in_binade_le k1 k2 X1 X2 :
  in_binade k1 X1 -> in_binade k2 X2 -> (X1 <= X2)%Q -> k1 <= k2.
Proof.
  intros [L1 U1] [L2 U2] H.
  assert (bpow (k1 - 1) < bpow k2)%Q as B by lra.
  apply bpow_lt_inv in B. lia.
Qed.

Lemma rnd_at_nonneg k X : (0 <= X)%Q -> (0 <= rnd_at k X)%Q.
Proof.
  intro H. unfold rnd_at. apply Qmult_le_0_compat; [| apply Qlt_le_weak, bpow_pos].
  change 0%Q with (inject_Z 0). rewrite <- Zle_Qle.
  rewrite <- (rne_Q_Z 0). apply rne_Q_mono.
  change (inject_Z 0) with 0%Q. apply Qle_shift_div_l; [apply bpow_pos |].
  rewrite Qmult_0_l. exact H.
Qed.

Lemma rnd_at_upper k X : in_binade k X -> (rnd_at k X <= bpow k)%Q.
Proof.
  intros [Lo Hi]. unfold rnd_at. set (e := fexp64 k).
  assert (0 < X)%Q as Xpos by (apply Qlt_le_trans with (2 := Lo), bpow_pos).
  assert (X / bpow e < bpow (k - e))%Q as Yhi.
  { rewrite <- bpow_div. apply Qdiv_bpow_lt, Hi. }
  destruct (Z_le_gt_dec e k) as [Hk | Hk].
  - assert (bpow k == bpow (k - e) * bpow e)%Q as ->
      by (rewrite <- bpow_add; replace (k - e + e) with k by lia; reflexivity).
    apply Qmult_bpow_le. rewrite (bpow_Z (k - e)) by lia. rewrite <- Zle_Qle.
    rewrite <- (rne_Q_Z (2 ^ (k - e))). apply rne_Q_mono.
    rewrite <- (bpow_Z (k - e)) by lia. lra.
  - rewrite rne_Q_small.
    + change (inject_Z 0) with 0%Q. rewrite Qmult_0_l. apply Qlt_le_weak, bpow_pos.
    + split.
      * apply Qle_shift_div_l; [apply bpow_pos |]. rewrite Qmult_0_l. lra.
      * apply Qlt_le_trans with (1 := Yhi). change (1 # 2)%Q with (bpow (-1)).
        apply bpow_le. lia.
Qed.

Lemma rnd_at_lower k X :
  in_binade k X -> -1074 <= k - 53 -> (bpow (k - 1) <= rnd_at k X)%Q.
Proof.
  intros [Lo Hi] Hk. unfold rnd_at. rewrite fexp64_eq.
  replace (Z.max (k - 53) (-1074)) with (k - 53) by lia.
  assert (bpow (k - 1) == bpow 52 * bpow (k - 53))%Q as ->
    by (rewrite <- bpow_add; replace (52 + (k - 53)) with (k - 1) by lia; reflexivity).
  apply Qmult_bpow_le. rewrite (bpow_Z 52) by lia. rewrite <- Zle_Qle.
  rewrite <- (rne_Q_Z (2 ^ 52)). apply rne_Q_mono.
  rewrite <- (bpow_Z 52) by lia.
  assert (bpow 52 == bpow (k - 1) / bpow (k - 53))%Q as ->
    by (rewrite bpow_div; replace (k - 1 - (k - 53)) with 52 by lia; reflexivity).
  apply Qdiv_bpow_le, Lo.
Qed.

(** Rounding to nearest is monotone, also across binades. *)
Theorem rnd_at_mono k1 k2 X1 X2 :
  in_binade k1 X1 -> in_binade k2 X2 -> (X1 <= X2)%Q ->
  (rnd_at k1 X1 <= rnd_at k2 X2)%Q.
Proof.
  intros B1 B2 H.
  pose proof (in_binade_le _ _ _ _ B1 B2 H) as Hk.
  destruct (Z.eq_dec (fexp64 k1) (fexp64 k2)) as [E | NE].
  - unfold rnd_at. rewrite E. apply Qmult_bpow_le. rewrite <- Zle_Qle.
    apply rne_Q_mono. apply Qdiv_bpow_le, H.
  - rewrite !fexp64_eq in NE.
    apply Qle_trans with (bpow k1); [apply rnd_at_upper, B1 |].
    apply Qle_trans with (bpow (k2 - 1)); [apply bpow_le; lia |].
    apply rnd_at_lower; [exact B2 | lia].
Qed.

(** A value that fits the format is not changed by rounding. *)
Theorem rnd_at_exact k X (M E : Z) :
  (X == inject_Z M * bpow E)%Q -> fexp64 k <= E -> (rnd_at k X == X)%Q.
Proof.
  intros HX HE. unfold rnd_at. set (e := fexp64 k) in *.
  assert (X / bpow e == inject_Z (M * 2 ^ (E - e)))%Q as EQ.
  { rewrite HX, inject_Z_mult, <- (bpow_Z (E - e)) by lia. rewrite bpow_sub.
    field. apply bpow_nz. }
  rewrite (rne_Q_comp _ _ EQ), rne_Q_Z.
  rewrite HX, inject_Z_mult, <- (bpow_Z (E - e)) by lia. rewrite bpow_sub.
  field. apply bpow_nz.
Qed.

Lemma fits_fexp k X (M E : Z) :
  in_binade k X -> (X == inject_Z M * bpow E)%Q -> M < 2 ^ 53 -> -1074 <= E ->
  fexp64 k <= E.
Proof.
  intros [Lo Hi] HX HM HE. rewrite fexp64_eq.
  assert (X < bpow (53 + E))%Q as U.
  { rewrite HX, bpow_add. apply Qmult_bpow_lt. rewrite (bpow_Z 53) by lia.
    rewrite <- Zlt_Qlt. exact HM. }
  assert (bpow (k - 1) < bpow (53 + E))%Q as B by lra.
  apply bpow_lt_inv in B. lia.
Qed.

(** ** Normalisation of an integer mantissa *)

Lemma pos_iter_xO (m p : positive) : Zpos (Pos.iter xO m p) = Zpos m * 2 ^ Zpos p.
Proof.
  induction p as [| p IH] using Pos.peano_ind.
  - simpl. lia.
  - rewrite Pos.iter_succ, Pos2Z.inj_xO, IH, Pos2Z.inj_succ, Z.pow_succ_r by lia. lia.
Qed.

Lemma shl_align_spec (mx : positive) (ex ex' : Z) :
  let '(mz, ez) := shl_align mx ex ex' in
  ez = Z.min ex ex' /\ Zpos mz = Zpos mx * 2 ^ (ex - ez).
Proof.
  unfold shl_align. destruct (ex' - ex) as [| d | d] eqn:E.
  - split; [lia |]. replace (ex - ex) with 0 by lia. simpl. lia.
  - split; [lia |]. replace (ex - ex) with 0 by lia. simpl. lia.
  - split; [lia |]. rewrite pos_iter_xO. f_equal. f_equal. lia.
Qed.

Lemma digits2_shift (m mz : positive) (n : Z) :
  0 <= n -> Zpos mz = Zpos m * 2 ^ n ->
  Zpos (digits2_pos mz) = Zpos (digits2_pos m) + n.
Proof.
  intros Hn E. apply digits2_unique. rewrite E.
  pose proof (digits2_spec m) as [Lo Hi].
  assert (0 < Zpos (digits2_pos m)) by lia.
  replace (Zpos (digits2_pos m) + n - 1) with ((Zpos (digits2_pos m) - 1) + n) by lia.
  rewrite !Z.pow_add_r by lia.
  assert (0 < 2 ^ n) by (apply Z.pow_pos_nonneg; lia).
  split; nia.
Qed.

Lemma digits2_ge (m : positive) (j : Z) :
  2 ^ (j - 1) <= Zpos m -> j <= Zpos (digits2_pos m).
Proof.
  intro H. pose proof (digits2_spec m) as [Lo Hi].
  destruct (Z_le_gt_dec j (Zpos (digits2_pos m))) as [L | G]; [exact L | exfalso].
  assert (2 ^ Zpos (digits2_pos m) <= 2 ^ (j - 1)) by (apply Z.pow_le_mono_r; lia).
  lia.
Qed.

(** [binary_round] rounds [mx * 2^ex] to nearest even. *)
Theorem binary_round_spec (s : bool) (mx : positive) (ex : Z) :
  let k := Zpos (digits2_pos mx) + ex in
  let X := (inject_Z (Zpos mx) * bpow ex)%Q in
  in_binade k X /\ describes s (rnd_at k X) (binary_round prec emax s mx ex).
Proof.
  intros k X. unfold binary_round. fold (fexp64 (Zpos (digits2_pos mx) + ex)). fold k.
  pose proof (shl_align_spec mx ex (fexp64 k)) as A.
  destruct (shl_align mx ex (fexp64 k)) as [mz ez]. destruct A as [Ez Mz].
  assert (0 <= ex - ez) as Hs by lia.
  pose proof (digits2_shift mx mz _ Hs Mz) as Dz.
  assert (inject_Z (Zpos mz) * bpow ez == X)%Q as EX.
  { subst X. rewrite Mz, inject_Z_mult, <- (bpow_Z (ex - ez)) by lia.
    rewrite bpow_sub. field. apply bpow_nz. }
  destruct (binary_round_aux_spec s (Zpos mz) ez loc_Exact (inject_Z (Zpos mz)))
    as [B D].
  - lia.
  - apply inb_exact.
  - cbn [Zdigits2]. rewrite Dz. replace (Zpos (digits2_pos mx) + (ex - ez) + ez) with k by (subst k; lia).
    lia.
  - cbn [Zdigits2] in B, D. rewrite Dz in B, D.
    replace (Zpos (digits2_pos mx) + (ex - ez) + ez) with k in B, D by (subst k; lia).
    split.
    + destruct B as [B1 B2]. split; rewrite <- EX; assumption.
    + assert (rnd_at k X == rnd_at k (inject_Z (Zpos mz) * bpow ez))%Q as R.
      { unfold rnd_at. rewrite EX. reflexivity. }
      destruct D as [Z0 | m e V U | I].
      * apply describes_zero. rewrite R. exact Z0.
      * apply describes_finite; rewrite R; assumption.
      * apply describes_inf. rewrite R. exact I.
Qed.

(** ** Values of the results *)

Lemma describes_comp s v w f : (v == w)%Q -> describes s v f -> describes s w f.
Proof.
  intros E D. destruct D as [Z0 | m e V U | I].
  - apply describes_zero. rewrite <- E. exact Z0.
  - apply describes_finite; rewrite <- E; assumption.
  - apply describes_inf. rewrite <- E. exact I.
Qed.

Lemma in_binade_comp k X Y : (X == Y)%Q -> in_binade k X -> in_binade k Y.
Proof. intros E [L U]. split; rewrite <- E; assumption. Qed.

#[global] Instance rnd_at_comp k : Proper (Qeq ==> Qeq) (rnd_at k).
Proof. intros X Y E. unfold rnd_at. rewrite E. reflexivity. Qed.

Lemma describes_pos_value v f :
  describes false v f -> (v < bpow emax)%Q -> is_finite f = true /\ (B2Q f == v)%Q.
Proof.
  intros D U. destruct D as [Z0 | m e V _ | I].
  - split; [reflexivity |]. cbn. symmetry. exact Z0.
  - split; [reflexivity |]. cbn. symmetry. exact V.
  - exfalso. lra.
Qed.

Lemma describes_neg_value v f :
  describes true v f -> (v < bpow emax)%Q -> is_finite f = true /\ (B2Q f == - v)%Q.
Proof.
  intros D U. destruct D as [Z0 | m e V _ | I].
  - split; [reflexivity |]. cbn. rewrite Z0. reflexivity.
  - split; [reflexivity |]. cbn [B2Q cond_Zopp]. rewrite V.
    change (Z.neg m) with (- Zpos m). rewrite inject_Z_opp. ring.
  - exfalso. lra.
Qed.

(** ** Multiplication *)

Theorem SFmul_spec (mx my : positive) (ex ey : Z) :
  Zpos (digits2_pos mx) = 53 ->
  let X := (inject_Z (Zpos mx) * bpow ex * (inject_Z (Zpos my) * bpow ey))%Q in
  exists k, in_binade k X /\
    describes false (rnd_at k X)
      (SFmul prec emax (S754_finite false mx ex) (S754_finite false my ey)).
Proof.
  intros Hd X. cbn [SFmul xorb].
  pose proof (digits2_spec mx) as [Lo _]. rewrite Hd in Lo.
  assert (53 <= Zpos (digits2_pos (mx * my))) as Dp.
  { apply digits2_ge. rewrite Pos2Z.inj_mul. change (53 - 1) with 52 in *. nia. }
  destruct (binary_round_aux_spec false (Zpos (mx * my)) (ex + ey) loc_Exact
              (inject_Z (Zpos (mx * my)))) as [B D].
  - lia.
  - apply inb_exact.
  - cbn [Zdigits2]. rewrite fexp64_eq. lia.
  - assert (inject_Z (Zpos (mx * my)) * bpow (ex + ey) == X)%Q as EX.
    { subst X. rewrite Pos2Z.inj_mul, inject_Z_mult, bpow_add. ring. }
    exists (Zdigits2 (Zpos (mx * my)) + (ex + ey)). split.
    + apply (in_binade_comp _ _ _ EX), B.
    + apply (describes_comp _ _ _ _ (rnd_at_comp _ _ _ EX)), D.
Qed.

(** ** Division *)

Lemma frac_half (r D : Z) :
  0 < D ->
  let t := (inject_Z r / inject_Z D)%Q in
  (2 * r < D -> (t < 1 # 2)%Q) /\ (2 * r = D -> (t == 1 # 2)%Q) /\
  (D < 2 * r -> (1 # 2 < t)%Q) /\ (0 < r -> (0 < t)%Q) /\ (r < D -> (t < 1)%Q) /\
  (r = 0 -> (t == 0)%Q).
Proof.
  intros HD t. subst t.
  assert (0 < inject_Z D)%Q as HDq by (change 0%Q with (inject_Z 0); rewrite <- Zlt_Qlt; exact HD).
  repeat split; intro H.
  - apply Qlt_shift_div_r; [exact HDq |].
    rewrite Zlt_Qlt, inject_Z_mult in H. change (inject_Z 2) with 2%Q in H. lra.
  - assert (inject_Z D == 2 * inject_Z r)%Q as E.
    { rewrite <- H, inject_Z_mult. reflexivity. }
    rewrite E in HDq |- *. field. lra.
  - apply Qlt_shift_div_l; [exact HDq |].
    rewrite Zlt_Qlt, inject_Z_mult in H. change (inject_Z 2) with 2%Q in H. lra.
  - apply Qlt_shift_div_l; [exact HDq |].
    rewrite Zlt_Qlt in H. change (inject_Z 0) with 0%Q in H. lra.
  - apply Qlt_shift_div_r; [exact HDq |].
    rewrite Zlt_Qlt in H. lra.
  - subst r. change (inject_Z 0) with 0%Q. field. lra.
Qed.

(** The location that the division core reads off the remainder is the
    position of the exact quotient. *)
Lemma new_location_inb (a D q r : Z) :
  0 < D -> a = D * q + r -> 0 <= r < D ->
  inb (shr_record_of_loc q (new_location D r)) (inject_Z a / inject_Z D).
Proof.
  intros HD Ha Hr.
  assert (0 < inject_Z D)%Q as HDq by (change 0%Q with (inject_Z 0); rewrite <- Zlt_Qlt; exact HD).
  assert (inject_Z a / inject_Z D == inject_Z q + inject_Z r / inject_Z D)%Q as E.
  { rewrite Ha, inject_Z_plus, inject_Z_mult. field. lra. }
  apply (inb_comp _ (inject_Z q + inject_Z r / inject_Z D)%Q); [symmetry; exact E |].
  destruct (frac_half r D HD) as (T1 & T2 & T3 & T4 & T5 & T6).
  set (t := (inject_Z r / inject_Z D)%Q) in *.
  unfold new_location, new_location_even, new_location_odd.
  destruct (Z.even D) eqn:Ev; destruct (Z.eqb_spec r 0) as [R0 | R0].
  - unfold inb; cbn. rewrite (T6 R0). ring.
  - destruct (Z.compare_spec (2 * r) D) as [C | C | C]; unfold inb; cbn;
      [specialize (T2 C) | specialize (T1 C) | specialize (T3 C)];
      specialize (T4 ltac:(lia)); specialize (T5 ltac:(lia)); lra.
  - unfold inb; cbn. rewrite (T6 R0). ring.
  - assert (2 * r <> D) as Odd.
    { intro C. rewrite <- C, Z.even_mul in Ev. discriminate. }
    destruct (Z.compare_spec (2 * r + 1) D) as [C | C | C]; unfold inb; cbn;
      specialize (T4 ltac:(lia)); specialize (T5 ltac:(lia)).
    + specialize (T1 ltac:(lia)). lra.
    + specialize (T1 ltac:(lia)). lra.
    + specialize (T3 ltac:(lia)). lra.
Qed.

(** The quotient of two positive finite floats is their exact quotient
    rounded to nearest even, as long as it is not in the subnormal range. *)
Theorem SFdiv_spec (mx my : positive) (ex ey : Z) :
  -1074 <= Zpos (digits2_pos mx) + ex - (Zpos (digits2_pos my) + ey) - 53 ->
  let X := (inject_Z (Zpos mx) * bpow ex / (inject_Z (Zpos my) * bpow ey))%Q in
  exists k, in_binade k X /\
    describes false (rnd_at k X)
      (SFdiv prec emax (S754_finite false mx ex) (S754_finite false my ey)).
Proof.
  intros Hk X. cbn [SFdiv xorb]. unfold SFdiv_core_binary. cbn [Zdigits2].
  set (d1 := Zpos (digits2_pos mx)) in *. set (d2 := Zpos (digits2_pos my)) in *.
  fold (fexp64 (d1 + ex - (d2 + ey))). rewrite fexp64_eq.
  set (e' := Z.min (Z.max (d1 + ex - (d2 + ey) - 53) (-1074)) (ex - ey)).
  set (s := ex - ey - e').
  assert (0 <= s) as Hs by (subst s e'; lia).
  assert (53 - d1 + d2 <= s) as Hs' by (subst s e'; lia).
  set (m' := match s with Zpos _ => Z.shiftl (Zpos mx) s | 0 => Zpos mx | Zneg _ => 0 end).
  assert (m' = Zpos mx * 2 ^ s) as Hm'.
  { subst m'. destruct s as [| p | p]; [simpl; lia | | lia].
    apply Z.shiftl_mul_pow2. lia. }
  clearbody m'.
  pose proof (Z_div_mod m' (Zpos my) ltac:(lia)) as DM.
  destruct (Z.div_eucl m' (Zpos my)) as [q r]. destruct DM as [Ha Hr].
  pose proof (digits2_spec mx) as [Lo1 Hi1]. pose proof (digits2_spec my) as [Lo2 Hi2].
  fold d1 in Lo1, Hi1. fold d2 in Lo2, Hi2.
  assert (0 < d1) by (subst d1; lia). assert (0 < d2) by (subst d2; lia).
  assert (2 ^ 52 <= q) as Hq.
  { assert (2 ^ 52 * 2 ^ d2 <= m').
    { rewrite Hm'. rewrite <- Z.pow_add_r by lia.
      apply Z.le_trans with (2 ^ (d1 - 1) * 2 ^ s).
      - rewrite <- Z.pow_add_r by lia. apply Z.pow_le_mono_r; lia.
      - apply Z.mul_le_mono_nonneg_r; [apply Z.pow_nonneg; lia | exact Lo1]. }
    assert (0 < 2 ^ 52) by reflexivity.
    destruct (Z_le_gt_dec (2 ^ 52) q) as [L | G]; [exact L | exfalso]. nia. }
  assert (0 < q) as Qpos by (assert (0 < 2 ^ 52) by reflexivity; lia).
  destruct q as [| pq | pq]; try lia.
  pose proof (new_location_inb m' (Zpos my) (Zpos pq) r ltac:(lia) Ha Hr) as IN.
  destruct (binary_round_aux_spec false (Zpos pq) e' (new_location (Zpos my) r) _
              Qpos IN) as [B D].
  - cbn [Zdigits2]. rewrite fexp64_eq.
    assert (53 <= Zpos (digits2_pos pq)) by (apply digits2_ge; exact Hq). lia.
  - assert (inject_Z m' / inject_Z (Zpos my) * bpow e' == X)%Q as EX.
    { subst X. rewrite Hm', inject_Z_mult, <- (bpow_Z s) by lia.
      unfold s. rewrite !bpow_sub. field.
      repeat split; try apply bpow_nz.
      change 0%Q with (inject_Z 0). rewrite inject_Z_injective. lia. }
    exists (Zdigits2 (Zpos pq) + e'). split.
    + apply (in_binade_comp _ _ _ EX), B.
    + apply (describes_comp _ _ _ _ (rnd_at_comp _ _ _ EX)), D.
Qed.

(** ** Integers to floats and back *)

Lemma binary_round_aux_canonical (s : bool) (m : positive) (e : Z) :
  bounded prec emax m e = true ->
  binary_round_aux prec emax s (Zpos m) e loc_Exact = S754_finite s m e.
Proof.
  unfold bounded, canonical_mantissa. intro H.
  apply andb_true_iff in H. destruct H as [C B].
  apply Z.eqb_eq in C.
  unfold binary_round_aux, shr_fexp. cbn [Zdigits2]. rewrite C, Z.sub_diag.
  cbn [shr shr_record_of_loc shr_m loc_of_shr_record round_nearest_even Zdigits2].
  rewrite C, Z.sub_diag. cbn [shr shr_m]. rewrite B. reflexivity.
Qed.

(** A positive integer below [2^53] converts exactly, to a float with a full
    mantissa. *)
Lemma Z2F_pos (n : Z) :
  0 < n < 2 ^ 53 ->
  exists m e, Z2F n = S754_finite false m e /\
    Zpos (digits2_pos m) = 53 /\ -52 <= e <= 0 /\
    (inject_Z (Zpos m) * bpow e == inject_Z n)%Q.
Proof.
  intros [Hlo Hhi]. destruct n as [| p | p]; try lia.
  unfold Z2F, binary_normalize, binary_round.
  pose proof (digits2_spec p) as [Lo Hi]. set (d := Zpos (digits2_pos p)) in *.
  assert (0 < d) by (subst d; lia).
  assert (d <= 53).
  { destruct (Z_le_gt_dec d 53) as [L | G]; [exact L | exfalso].
    assert (2 ^ 53 <= 2 ^ (d - 1)) by (apply Z.pow_le_mono_r; lia). lia. }
  fold (fexp64 (d + 0)). rewrite fexp64_eq.
  pose proof (shl_align_spec p 0 (Z.max (d + 0 - 53) (-1074))) as A.
  destruct (shl_align p 0 (Z.max (d + 0 - 53) (-1074))) as [mz ez].
  destruct A as [Ez Mz].
  assert (ez = d - 53) as -> by lia.
  assert (Zpos (digits2_pos mz) = 53) as Dz.
  { rewrite (digits2_shift p mz (0 - (d - 53))); [fold d; lia | lia | exact Mz]. }
  rewrite binary_round_aux_canonical.
  - exists mz, (d - 53). repeat split; try lia.
    rewrite Mz, inject_Z_mult, <- (bpow_Z (0 - (d - 53))) by lia.
    rewrite <- Qmult_assoc, <- bpow_add.
    replace (0 - (d - 53) + (d - 53)) with 0 by lia. change (bpow 0) with 1%Q. ring.
  - unfold bounded, canonical_mantissa. rewrite Dz.
    fold (fexp64 (53 + (d - 53))). rewrite fexp64_eq.
    apply andb_true_iff. split; [apply Z.eqb_eq | apply Z.leb_le]; unfold emax, prec; lia.
Qed.

Lemma Qfloor_div (a b : Z) : 0 < b -> Qfloor (inject_Z a / inject_Z b) = a / b.
Proof.
  intro Hb. apply Qfloor_unique.
  assert (0 < inject_Z b)%Q as Hbq by (change 0%Q with (inject_Z 0); rewrite <- Zlt_Qlt; exact Hb).
  pose proof (Z.div_mod a b ltac:(lia)) as E.
  pose proof (Z.mod_pos_bound a b Hb) as [R0 R1].
  split.
  - apply Qle_shift_div_l; [exact Hbq |]. rewrite <- inject_Z_mult, <- Zle_Qle. nia.
  - apply Qlt_shift_div_r; [exact Hbq |].
    change 1%Q with (inject_Z 1). rewrite <- inject_Z_plus, <- inject_Z_mult, <- Zlt_Qlt. nia.
Qed.

Lemma value_as_fraction (m : positive) (e : Z) :
  e < 0 -> (inject_Z (Zpos m) * bpow e == inject_Z (Zpos m) / inject_Z (2 ^ (- e)))%Q.
Proof.
  intro He. rewrite <- (bpow_Z (- e)) by lia.
  replace e with (0 - (- e)) at 1 by lia. rewrite bpow_sub. change (bpow 0) with 1%Q.
  field. apply bpow_nz.
Qed.

(** [int(f)] of a non-negative finite float is the floor of its value. *)
Theorem py_int_spec (f : float) :
  is_finite f = true -> (0 <= B2Q f)%Q -> py_int f = Ok (Qfloor (B2Q f)).
Proof.
  intros Hf Hpos. destruct f as [s | s | | s m e]; try discriminate.
  - reflexivity.
  - cbn [py_int B2Q] in *.
    assert (s = false) as ->.
    { destruct s; [exfalso | reflexivity]. cbn [cond_Zopp] in Hpos.
      assert (0 < inject_Z (Zpos m) * bpow e)%Q.
      { apply Qmult_lt_0_compat; [| apply bpow_pos]. change 0%Q with (inject_Z 0).
        rewrite <- Zlt_Qlt. lia. }
      change (Z.neg m) with (- Zpos m) in Hpos. rewrite inject_Z_opp in Hpos. lra. }
    cbn [cond_Zopp]. f_equal.
    destruct (Z_le_gt_dec 0 e) as [He | He].
    + rewrite Z.shiftl_mul_pow2 by lia.
      rewrite (bpow_Z e), <- inject_Z_mult by lia. rewrite Qfloor_Z. reflexivity.
    + rewrite <- (Z.opp_involutive e) at 1. rewrite Z.shiftl_opp_r, Z.shiftr_div_pow2 by lia.
      rewrite (Qfloor_comp _ _ (value_as_fraction m e ltac:(lia))).
      rewrite Qfloor_div; [reflexivity | apply Z.pow_pos_nonneg; lia].
Qed.

(** [int(f)] truncates toward zero, whatever the sign. *)
Theorem py_int_trunc (f : float) :
  is_finite f = true ->
  py_int f = Ok (if Qle_bool 0 (B2Q f) then Qfloor (B2Q f) else Qceiling (B2Q f)).
Proof.
  intro Hf. destruct f as [s | s | | s m e]; try discriminate.
  - reflexivity.
  - pose proof (pos_value_positive m e) as Vpos.
    destruct s.
    + assert (B2Q (S754_finite true m e) == - (inject_Z (Zpos m) * bpow e))%Q as V.
      { cbn [B2Q cond_Zopp]. change (Z.neg m) with (- Zpos m).
        rewrite inject_Z_opp. ring. }
      destruct (Qle_bool 0 (B2Q (S754_finite true m e))) eqn:Le.
      * apply Qle_bool_iff in Le. rewrite V in Le. exfalso. lra.
      * unfold Qceiling.
        assert (- B2Q (S754_finite true m e) == B2Q (S754_finite false m e))%Q as V'
          by (rewrite V; cbn [B2Q cond_Zopp]; ring).
        rewrite (Qfloor_comp _ _ V').
        pose proof (py_int_spec (S754_finite false m e) eq_refl) as P.
        cbn [py_int cond_Zopp] in P |- *.
        specialize (P ltac:(cbn [B2Q cond_Zopp]; lra)). injection P as ->. reflexivity.
    + assert (Qle_bool 0 (B2Q (S754_finite false m e)) = true) as ->
        by (apply Qle_bool_iff; cbn [B2Q cond_Zopp]; lra).
      apply py_int_spec; [reflexivity | cbn [B2Q cond_Zopp]; lra].
Qed.

(** ** Rounding to an integer; exact subtraction *)

Lemma rne_Q_opp (x : Q) : rne_Q (- x) = - rne_Q x.
Proof.
  pose proof (Qfloor_le x) as Lo. pose proof (Qlt_floor x) as Hi.
  rewrite inject_Z_plus in Hi. change (inject_Z 1) with 1%Q in Hi.
  set (f := Qfloor x) in *.
  destruct (Qeq_dec x (inject_Z f)) as [E | NE].
  - assert (- x == inject_Z (- f))%Q as E' by (rewrite inject_Z_opp, E; reflexivity).
    rewrite (rne_Q_comp _ _ E'), (rne_Q_comp _ _ E), !rne_Q_Z. reflexivity.
  - assert (inject_Z f < x)%Q as Lo' by (destruct (Qlt_le_dec (inject_Z f) x); [assumption | exfalso; apply NE; lra]).
    assert (Qfloor (- x) = - f - 1) as F'.
    { apply Qfloor_unique. unfold Z.sub. rewrite inject_Z_plus, inject_Z_opp.
      change (inject_Z (- (1))) with (- (1))%Q. split; lra. }
    unfold rne_Q. rewrite F'. fold f.
    unfold Z.sub. rewrite inject_Z_plus, inject_Z_opp.
    change (inject_Z (- (1))) with (- (1))%Q.
    assert (Z.even (- f + - (1)) = negb (Z.even f)) as Ev.
    { replace (- f + - (1)) with (- (f + 1)) by lia.
      rewrite Z.even_opp, Z.even_add. destruct (Z.even f); reflexivity. }
    rewrite Ev.
    destruct (Qcompare_spec (x - inject_Z f) (1 # 2)) as [C | C | C];
      destruct (Qcompare_spec (- x - (- inject_Z f + - (1))) (1 # 2)) as [C' | C' | C'];
      try lra.
    + destruct (Z.even f); cbn [negb]; lia.
    + lia.
    + lia.
Qed.

(** [round_half_even] is rounding to the nearest integer, ties to even. *)
Lemma round_half_even_spec (m : positive) (e : Z) :
  round_half_even m e = rne_Q (inject_Z (Zpos m) * bpow e).
Proof.
  unfold round_half_even.
  destruct (Z.leb_spec 0 e) as [He | He].
  - assert (inject_Z (Zpos m) * bpow e == inject_Z (Zpos m * 2 ^ e))%Q as E
      by (rewrite inject_Z_mult, (bpow_Z e) by lia; reflexivity).
    rewrite (rne_Q_comp _ _ E), rne_Q_Z. reflexivity.
  - set (D := 2 ^ (- e)).
    assert (0 < D) as HD by (apply Z.pow_pos_nonneg; lia).
    pose proof (Z.div_mod (Zpos m) D ltac:(lia)) as E.
    pose proof (Z.mod_pos_bound (Zpos m) D HD) as [R0 R1].
    set (q := Zpos m / D) in *. set (r := Zpos m mod D) in *.
    assert (inject_Z (Zpos m) * bpow e == inject_Z q + inject_Z r / inject_Z D)%Q as EX.
    { rewrite (value_as_fraction m e He). fold D.
      rewrite E at 1. rewrite inject_Z_plus, inject_Z_mult. field.
      pose proof (inject_Z_pos D HD). lra. }
    rewrite (rne_Q_comp _ _ EX).
    destruct (frac_half r D HD) as (T1 & T2 & T3 & T4 & T5 & T6).
    set (t := (inject_Z r / inject_Z D)%Q) in *.
    assert (0 <= t)%Q as T0.
    { destruct (Z.eq_dec r 0) as [Z0 | NZ]; [rewrite (T6 Z0); lra |].
      apply Qlt_le_weak, T4. lia. }
    specialize (T5 R1).
    assert (Qfloor (inject_Z q + t) = q) as F by (apply Qfloor_unique; split; lra).
    unfold rne_Q. rewrite F.
    destruct (Z.compare_spec (2 * r) D) as [C | C | C];
      [specialize (T2 C) | specialize (T1 C) | specialize (T3 C)];
      destruct (Qcompare_spec (inject_Z q + t - inject_Z q) (1 # 2)); try lra; reflexivity.
Qed.

(** [round(f)] is the integer nearest to the value of [f], ties to even. *)
Theorem py_round_spec (f : float) :
  is_finite f = true -> py_round f = Ok (rne_Q (B2Q f)).
Proof.
  intro Hf. destruct f as [s | s | | s m e]; try discriminate.
  - reflexivity.
  - cbn [py_round B2Q]. f_equal. rewrite round_half_even_spec.
    destruct s; cbn [cond_Zopp]; [| reflexivity].
    rewrite <- rne_Q_opp. apply rne_Q_comp.
    change (Z.neg m) with (- Zpos m). rewrite inject_Z_opp. ring.
Qed.

(** ** Subtraction of values whose difference fits the format *)

Lemma binary_normalize_exact (D ez M E : Z) :
  (inject_Z D * bpow ez == inject_Z M * bpow E)%Q ->
  - 2 ^ 53 < M < 2 ^ 53 -> -1074 <= E <= 971 ->
  let f := binary_normalize prec emax D ez false in
  is_finite f = true /\ (B2Q f == inject_Z D * bpow ez)%Q.
Proof.
  intros HX HM HE f. subst f.
  assert (bpow (53 + E) <= bpow emax)%Q as Top by (apply bpow_le; unfold emax; lia).
  assert (forall p : positive, (inject_Z (Zpos p) * bpow ez == inject_Z (Z.abs M) * bpow E)%Q ->
            forall s, let f := binary_round prec emax s p ez in
            describes s (inject_Z (Zpos p) * bpow ez) f /\
            (inject_Z (Zpos p) * bpow ez < bpow emax)%Q) as Core.
  { intros p Hp s. destruct (binary_round_spec s p ez) as [B Dsc].
    cbv zeta in *.
    pose proof (fits_fexp _ _ _ _ B Hp ltac:(lia) ltac:(lia)) as Fit.
    pose proof (rnd_at_exact _ _ _ _ Hp Fit) as Ex.
    split; [apply (describes_comp _ _ _ _ Ex), Dsc |].
    apply Qlt_le_trans with (2 := Top). rewrite Hp, bpow_add.
    apply Qmult_bpow_lt. rewrite (bpow_Z 53) by lia. rewrite <- Zlt_Qlt. lia. }
  destruct D as [| p | p]; cbn [binary_normalize].
  - split; [reflexivity |]. cbn. ring.
  - assert (0 < M) as Mpos.
    { destruct (Z_lt_le_dec 0 M) as [L | G]; [exact L | exfalso].
      assert (0 < inject_Z (Zpos p) * bpow ez)%Q
        by (apply Qmult_lt_0_compat; [apply inject_Z_pos; lia | apply bpow_pos]).
      assert (inject_Z M * bpow E <= 0)%Q.
      { assert (inject_Z M <= 0)%Q by (change 0%Q with (inject_Z 0); rewrite <- Zle_Qle; exact G).
        pose proof (bpow_pos E). nra. }
      lra. }
    destruct (Core p) with (s := false) as [Dsc U].
    { rewrite HX. rewrite Z.abs_eq by lia. reflexivity. }
    apply describes_pos_value; assumption.
  - assert (M < 0) as Mneg.
    { destruct (Z_lt_le_dec M 0) as [L | G]; [exact L | exfalso].
      assert (0 < inject_Z (Zpos p) * bpow ez)%Q
        by (apply Qmult_lt_0_compat; [apply inject_Z_pos; lia | apply bpow_pos]).
      change (Z.neg p) with (- Zpos p) in HX. rewrite inject_Z_opp in HX.
      assert (0 <= inject_Z M * bpow E)%Q.
      { assert (0 <= inject_Z M)%Q by (change 0%Q with (inject_Z 0); rewrite <- Zle_Qle; exact G).
        pose proof (bpow_pos E). nra. }
      lra. }
    destruct (Core p) with (s := true) as [Dsc U].
    { rewrite Z.abs_neq by lia. rewrite inject_Z_opp.
      change (Z.neg p) with (- Zpos p) in HX. rewrite inject_Z_opp in HX. lra. }
    destruct (describes_neg_value _ _ Dsc U) as [F V].
    split; [exact F |]. rewrite V.
    change (Z.neg p) with (- Zpos p). rewrite inject_Z_opp. ring.
Qed.

Lemma shl_align_value (mx : positive) (ex ez : Z) :
  ez <= ex ->
  (inject_Z (Zpos (fst (shl_align mx ex ez))) * bpow ez == inject_Z (Zpos mx) * bpow ex)%Q.
Proof.
  intro H. pose proof (shl_align_spec mx ex ez) as A.
  destruct (shl_align mx ex ez) as [mz ez']. destruct A as [Ez Mz]. cbn [fst].
  assert (ez' = ez) as -> by lia.
  rewrite Mz, inject_Z_mult, <- (bpow_Z (ex - ez)) by lia.
  rewrite bpow_sub. field. apply bpow_nz.
Qed.

Lemma inject_cond_Zopp (s : bool) (z : Z) :
  (inject_Z (cond_Zopp s z) == (if s then - inject_Z z else inject_Z z))%Q.
Proof. destruct s; cbn [cond_Zopp]; [rewrite inject_Z_opp |]; reflexivity. Qed.

(** A difference that fits the format is computed exactly. *)
Theorem SFsub_exact (x y : float) (M E : Z) :
  is_finite x = true -> is_finite y = true ->
  (B2Q x - B2Q y == inject_Z M * bpow E)%Q ->
  - 2 ^ 53 < M < 2 ^ 53 -> -1074 <= E <= 971 ->
  is_finite (SFsub prec emax x y) = true /\
  (B2Q (SFsub prec emax x y) == B2Q x - B2Q y)%Q.
Proof.
  intros Fx Fy HX HM HE.
  destruct x as [sx | sx | | sx mx ex]; try discriminate;
  destruct y as [sy | sy | | sy my ey]; try discriminate.
  - split; [destruct sx, sy; reflexivity |]. destruct sx, sy; cbn; ring.
  - split; [reflexivity |]. cbn [SFsub B2Q]. rewrite !inject_cond_Zopp.
    destruct sy; cbn [negb]; ring.
  - split; [reflexivity |]. cbn [SFsub B2Q]. ring.
  - cbn [SFsub].
    set (ez := Z.min ex ey).
    set (D := cond_Zopp sx (Zpos (fst (shl_align mx ex ez))) -
              cond_Zopp sy (Zpos (fst (shl_align my ey ez)))).
    assert (inject_Z D * bpow ez ==
            B2Q (S754_finite sx mx ex) - B2Q (S754_finite sy my ey))%Q as ED.
    { subst D. unfold Z.sub. rewrite inject_Z_plus, inject_Z_opp. cbn [B2Q].
      rewrite !inject_cond_Zopp.
      pose proof (shl_align_value mx ex ez ltac:(subst ez; lia)) as Vx.
      pose proof (shl_align_value my ey ez ltac:(subst ez; lia)) as Vy.
      destruct sx, sy; lra. }
    destruct (binary_normalize_exact D ez M E) as [F V]; try assumption.
    { rewrite ED. exact HX. }
    split; [exact F |]. rewrite V. exact ED.
Qed.

(** ** The arithmetic of the script *)

Lemma value_binade (m : positive) (e : Z) :
  in_binade (Zpos (digits2_pos m) + e) (inject_Z (Zpos m) * bpow e).
Proof.
  apply digits_binade. split; [apply Qle_refl |]. lra.
Qed.

Lemma bounded_digits (m : positive) (e : Z) :
  bounded prec emax m e = true ->
  e = Z.max (Zpos (digits2_pos m) + e - 53) (-1074).
Proof.
  unfold bounded, canonical_mantissa. intro H. apply andb_true_iff in H.
  destruct H as [C _]. apply Z.eqb_eq in C.
  fold (fexp64 (Zpos (digits2_pos m) + e)) in C. rewrite fexp64_eq in C. lia.
Qed.

(** Comparison of two valid positive floats agrees with the order of their values. *)
Theorem SFleb_value (m1 m2 : positive) (e1 e2 : Z) :
  bounded prec emax m1 e1 = true -> bounded prec emax m2 e2 = true ->
  SFleb (S754_finite false m1 e1) (S754_finite false m2 e2) = true ->
  (inject_Z (Zpos m1) * bpow e1 <= inject_Z (Zpos m2) * bpow e2)%Q.
Proof.
  intros B1 B2 H. apply bounded_digits in B1, B2.
  unfold SFleb, SFcompare in H.
  destruct (Z.compare_spec e1 e2) as [E | L | G].
  - subst e2. apply Qmult_bpow_le. rewrite <- Zle_Qle.
    change (Pos.compare_cont Eq m1 m2) with (Pos.compare m1 m2) in H.
    destruct (Pos.compare_spec m1 m2) as [E | L | G]; try discriminate; lia.
  - destruct (value_binade m1 e1) as [_ U1]. destruct (value_binade m2 e2) as [L2 _].
    apply Qlt_le_weak. apply Qlt_le_trans with (1 := U1).
    apply Qle_trans with (2 := L2). apply bpow_le. lia.
  - discriminate.
Qed.

(** A float accepted by [in_0_1] is positive, finite and at most one. *)
Theorem in_0_1_value (r : float) :
  in_0_1 r = true ->
  exists m e, r = S754_finite false m e /\ bounded prec emax m e = true /\
    (inject_Z (Zpos m) * bpow e <= 1)%Q.
Proof.
  unfold in_0_1. intro H. apply andb_true_iff in H. destruct H as [H Hle].
  apply andb_true_iff in H. destruct H as [Hv Hlt].
  destruct r as [s | s | | s m e]; try discriminate.
  - destruct s; discriminate.
  - destruct s; [discriminate |]. cbn [valid_binary] in Hv.
    exists m, e. repeat split; [exact Hv |].
    pose proof (SFleb_value m 4503599627370496 e (-52) Hv eq_refl Hle) as V.
    assert (inject_Z (Zpos 4503599627370496) * bpow (-52) == 1)%Q as E1 by reflexivity.
    rewrite E1 in V. exact V.
Qed.

Lemma mag_le_1 (m : positive) (e : Z) :
  (inject_Z (Zpos m) * bpow e <= 1)%Q -> Zpos (digits2_pos m) + e <= 1.
Proof.
  intro H. destruct (value_binade m e) as [L _].
  assert (bpow (Zpos (digits2_pos m) + e - 1) <= bpow 0)%Q as B
    by (change (bpow 0) with 1%Q; lra).
  apply bpow_le_inv in B. lia.
Qed.



Lemma float_of_int_Z2F (n : Z) : 0 <= n < 2 ^ 53 -> float_of_int n = Ok (Z2F n).
Proof.
  intros [L U]. destruct (Z.eq_dec n 0) as [-> | NZ]; [reflexivity |].
  destruct (Z2F_pos n ltac:(lia)) as (m & e & F & _).
  unfold float_of_int. rewrite F. reflexivity.
Qed.

Lemma int_in_binade (n : Z) :
  0 < n < 2 ^ 53 -> exists k, in_binade k (inject_Z n) /\ (rnd_at k (inject_Z n) == inject_Z n)%Q.
Proof.
  intros [L U]. destruct n as [| p | p]; try lia.
  exists (Zpos (digits2_pos p) + 0).
  pose proof (value_binade p 0) as B.
  assert (inject_Z (Zpos p) * bpow 0 == inject_Z (Zpos p))%Q as E
    by (change (bpow 0) with 1%Q; ring).
  apply (in_binade_comp _ _ _ E) in B. split; [exact B |].
  apply (rnd_at_exact _ _ (Zpos p) 0); [symmetry; exact E |].
  apply (fits_fexp _ _ (Zpos p) 0 B); [symmetry; exact E | exact U | lia].
Qed.

Lemma int_below_emax (n : Z) : n < 2 ^ 53 -> (inject_Z n < bpow emax)%Q.
Proof.
  intro H. apply Qlt_le_trans with (bpow 53).
  - rewrite (bpow_Z 53) by lia. rewrite <- Zlt_Qlt. exact H.
  - apply bpow_le. unfold emax. lia.
Qed.

(** ** [min_dim * fill_ratio] *)

Theorem product_spec (n : Z) (mr : positive) (er : Z) :
  0 < n < 2 ^ 53 -> (inject_Z (Zpos mr) * bpow er <= 1)%Q ->
  let f := SFmul prec emax (Z2F n) (S754_finite false mr er) in
  is_finite f = true /\ (0 <= B2Q f <= inject_Z n)%Q.
Proof.
  intros Hn Hr f. subst f.
  destruct (Z2F_pos n Hn) as (m & e & -> & Dm & He & Vn).
  destruct (SFmul_spec m mr e er Dm) as (k & B & Dsc). cbv zeta in *.
  set (X := (inject_Z (Zpos m) * bpow e * (inject_Z (Zpos mr) * bpow er))%Q) in *.
  pose proof (pos_value_positive mr er) as Rpos.
  assert (0 < inject_Z n)%Q as Npos by (apply inject_Z_pos; lia).
  assert (0 <= X <= inject_Z n)%Q as [X0 XU] by (subst X; rewrite Vn; split; nra).
  destruct (int_in_binade n Hn) as (k' & B' & Ex).
  pose proof (rnd_at_mono _ _ _ _ B B' XU) as Mono. rewrite Ex in Mono.
  pose proof (rnd_at_nonneg k X X0) as Nonneg.
  pose proof (int_below_emax n ltac:(lia)) as Top.
  destruct (describes_pos_value _ _ Dsc ltac:(lra)) as [F V].
  split; [exact F |]. rewrite V. split; assumption.
Qed.

(** ** [content_side / fill_ratio] *)

Theorem quotient_spec (c : Z) (mr : positive) (er : Z) :
  0 < c < 2 ^ 53 -> (inject_Z (Zpos mr) * bpow er <= 1)%Q ->
  let X := (inject_Z c / (inject_Z (Zpos mr) * bpow er))%Q in
  exists k, in_binade k X /\ (inject_Z c <= rnd_at k X)%Q /\
    describes false (rnd_at k X) (SFdiv prec emax (Z2F c) (S754_finite false mr er)).
Proof.
  intros Hc Hr X.
  destruct (Z2F_pos c Hc) as (m & e & -> & Dm & He & Vc).
  pose proof (mag_le_1 mr er Hr) as Mag.
  destruct (SFdiv_spec m mr e er ltac:(lia)) as (k & B & Dsc). cbv zeta in *.
  pose proof (pos_value_positive mr er) as Rpos.
  assert (inject_Z (Zpos m) * bpow e / (inject_Z (Zpos mr) * bpow er) == X)%Q as EX
    by (subst X; rewrite Vc; reflexivity).
  exists k. split; [apply (in_binade_comp _ _ _ EX), B |]. split.
  - destruct (int_in_binade c Hc) as (k' & B' & Ex).
    rewrite <- Ex. apply rnd_at_mono; [exact B' | apply (in_binade_comp _ _ _ EX), B |].
    subst X. apply Qle_shift_div_l; [exact Rpos |].
    assert (0 < inject_Z c)%Q by (apply inject_Z_pos; lia). nra.
  - apply (describes_comp _ _ _ _ (rnd_at_comp _ _ _ EX)), Dsc.
Qed.

(** ** Halving an integer: [(left + right) / 2], [crop_side / 2] *)

Theorem int_truediv_2 (a : Z) :
  0 <= a < 2 ^ 53 ->
  exists f, int_truediv a 2 = Ok f /\ is_finite f = true /\
    (B2Q f == inject_Z a * (1 # 2))%Q.
Proof.
  intros [L U]. unfold int_truediv.
  rewrite (float_of_int_Z2F a), (float_of_int_Z2F 2) by (split; [lia | try reflexivity; lia]).
  cbn [bind].
  destruct (Z.eq_dec a 0) as [-> | NZ].
  - exists (S754_zero false). repeat split. 
  - destruct (Z2F_pos a ltac:(lia)) as (m & e & -> & Dm & He & Va).
    change (Z2F 2) with (S754_finite false 4503599627370496 (-51)).
    unfold float_truediv. cbn [is_zero].
    eexists. split; [reflexivity |].
    destruct (SFdiv_spec m 4503599627370496 e (-51)) as (k & B & Dsc).
    { rewrite Dm. change (Zpos (digits2_pos 4503599627370496)) with 53. lia. }
    cbv zeta in *.
    assert (inject_Z (Zpos m) * bpow e / (inject_Z (Zpos 4503599627370496) * bpow (-51))
            == inject_Z a * bpow (-1))%Q as EX.
    { rewrite Va.
      assert (inject_Z (Zpos 4503599627370496) * bpow (-51) == 2)%Q as -> by reflexivity.
      change (bpow (-1)) with (1 # 2)%Q. field. }
    pose proof (fits_fexp _ _ a (-1) B EX U ltac:(lia)) as Fit.
    pose proof (rnd_at_exact _ _ _ _ EX Fit) as Ex.
    apply (describes_comp _ _ _ _ Ex) in Dsc.
    destruct (describes_pos_value _ _ Dsc) as [F V].
    + rewrite EX. change (bpow (-1)) with (1 # 2)%Q.
      pose proof (int_below_emax a U).
      assert (0 < inject_Z a)%Q by (apply inject_Z_pos; lia). lra.
    + split; [exact F |]. rewrite V, EX. reflexivity.
Qed.

(** * The crop box *)

Lemma bind_Ok_inv {A B : Type} (c : result A) (f : A -> result B) (b : B) :
  bind c f = Ok b -> exists a, c = Ok a /\ f a = Ok b.
Proof. destruct c as [a | e]; cbn; [eauto | discriminate]. Qed.

Lemma box_eqb_eq (a b : box) : box_eqb a b = true <-> a = b.
Proof.
  destruct a as [[[l1 t1] r1] b1], b as [[[l2 t2] r2] b2]. unfold box_eqb.
  rewrite !andb_true_iff, !Z.eqb_eq. split.
  - intros [[[-> ->] ->] ->]. reflexivity.
  - intro E. inversion E. auto.
Qed.

Lemma wf_image_dims (image : Image) :
  wf_image image = true ->
  0 < im_width image < 2 ^ 52 /\ 0 < im_height image < 2 ^ 52.
Proof.
  unfold wf_image. rewrite !andb_true_iff, !Z.ltb_lt. tauto.
Qed.

Lemma wf_image_bbox (image : Image) (l t r b : Z) :
  wf_image image = true -> im_bbox image = Some (l, t, r, b) ->
  0 <= l <= r /\ r <= im_width image /\ 0 <= t <= b /\ b <= im_height image.
Proof.
  unfold wf_image. intros H E. rewrite E in H. unfold wf_bbox in H.
  rewrite !andb_true_iff, !Z.leb_le in H. lia.
Qed.

(** The fixed-ratio branch always returns, with a side between 1 and [min_dim]. *)
Theorem fixed_ratio_crop_spec (image : Image) (fill_ratio : float) :
  wf_image image = true -> in_0_1 fill_ratio = true ->
  fixed_ratio_crop (im_width image) (im_height image) fill_ratio =
    Ok (centered_square_crop_bounds (im_width image) (im_height image)
          (fixed_ratio_side image fill_ratio)) /\
  1 <= fixed_ratio_side image fill_ratio <= min_dim_of image.
Proof.
  intros Wf Hr. destruct (wf_image_dims _ Wf) as [Hw Hh].
  destruct (in_0_1_value _ Hr) as (mr & er & -> & _ & V).
  unfold fixed_ratio_crop, fixed_ratio_side, int_mul_float. fold (min_dim_of image).
  assert (0 < min_dim_of image < 2 ^ 53) as Hn.
  { unfold min_dim_of. assert (2 ^ 52 < 2 ^ 53) by reflexivity. lia. }
  rewrite float_of_int_Z2F by lia. cbn [bind].
  destruct (product_spec (min_dim_of image) mr er Hn V) as [F [P0 P1]]. cbv zeta in *.
  rewrite (py_int_spec _ F P0). cbn [bind]. split; [reflexivity |].
  apply Qfloor_resp_le in P1. rewrite Qfloor_Z in P1. lia.
Qed.

(** ** The partial-content branch *)

(** Half of an integer, rounded to the nearest integer with ties to even. *)
Lemma rne_half_bounds (d : Z) :
  2 * rne_Q (inject_Z d * (1 # 2)) - 1 <= d <= 2 * rne_Q (inject_Z d * (1 # 2)) + 1.
Proof.
  destruct (rne_Q_bounds (inject_Z d * (1 # 2))) as [Lo Hi].
  set (x := rne_Q (inject_Z d * (1 # 2))) in *. split.
  - assert (inject_Z (2 * x - 1) <= inject_Z d)%Q as Q1.
    { unfold Z.sub. rewrite !inject_Z_plus, inject_Z_mult, !inject_Z_opp.
      change (inject_Z 2) with 2%Q. change (inject_Z 1) with 1%Q. lra. }
    rewrite <- Zle_Qle in Q1. exact Q1.
  - assert (inject_Z d <= inject_Z (2 * x + 1))%Q as Q1.
    { rewrite !inject_Z_plus, inject_Z_mult.
      change (inject_Z 2) with 2%Q. change (inject_Z 1) with 1%Q. lra. }
    rewrite <- Zle_Qle in Q1. exact Q1.
Qed.

(** [round(a / 2 - s / 2)] is computed without any rounding error before the
    final rounding to an integer. *)
Theorem round_offset_spec (a s : Z) :
  0 <= a < 2 ^ 53 -> 0 <= s < 2 ^ 53 ->
  exists c h,
    int_truediv a 2 = Ok c /\ int_truediv s 2 = Ok h /\
    py_round (SFsub prec emax c h) = Ok (rne_Q (inject_Z (a - s) * (1 # 2))).
Proof.
  intros Ha Hs.
  destruct (int_truediv_2 a Ha) as (c & Ec & Fc & Vc).
  destruct (int_truediv_2 s Hs) as (h & Eh & Fh & Vh).
  assert (B2Q c - B2Q h == inject_Z (a - s) * (1 # 2))%Q as V.
  { rewrite Vc, Vh. unfold Z.sub. rewrite inject_Z_plus, inject_Z_opp. ring. }
  destruct (SFsub_exact c h (a - s) (-1) Fc Fh) as [Fd Vd].
  - rewrite V. reflexivity.
  - lia.
  - lia.
  - exists c, h. split; [exact Ec |]. split; [exact Eh |].
    rewrite (py_round_spec _ Fd). f_equal. apply rne_Q_comp.
    rewrite Vd. exact V.
Qed.

Lemma content_side_bounds (image : Image) (l t r b : Z) :
  wf_image image = true -> im_bbox image = Some (l, t, r, b) ->
  1 <= content_side_of (l, t, r, b) < 2 ^ 52.
Proof.
  intros Wf E. destruct (wf_image_dims _ Wf) as [Hw Hh].
  pose proof (wf_image_bbox _ _ _ _ _ Wf E). unfold content_side_of. lia.
Qed.

(** The quotient [content_side / fill_ratio] is a finite float not below
    [content_side], or it overflowed to plus infinity. *)
Theorem target_quotient_cases (bb : box) (fill_ratio : float) :
  1 <= content_side_of bb < 2 ^ 53 -> in_0_1 fill_ratio = true ->
  (exists target, py_int (target_quotient bb fill_ratio) = Ok target /\
     target = Qfloor (B2Q (target_quotient bb fill_ratio)) /\
     content_side_of bb <= target) \/
  (target_quotient bb fill_ratio = S754_infinity false /\
   py_int (target_quotient bb fill_ratio) = Raise OverflowError).
Proof.
  intros Hc Hr. destruct (in_0_1_value _ Hr) as (mr & er & -> & _ & V).
  unfold target_quotient.
  destruct (quotient_spec (content_side_of bb) mr er ltac:(lia) V) as (k & B & Lo & Dsc).
  cbv zeta in *.
  set (q := SFdiv prec emax (Z2F (content_side_of bb)) (S754_finite false mr er)) in *.
  assert (0 < inject_Z (content_side_of bb))%Q as Cpos by (apply inject_Z_pos; lia).
  inversion Dsc as [Z0 | m e Vq U | I].
  - exfalso. lra.
  - left. assert (B2Q q == rnd_at k (inject_Z (content_side_of bb) / (inject_Z (Zpos mr) * bpow er)))%Q as VQ
      by (rewrite <- H; cbn [B2Q cond_Zopp]; symmetry; exact Vq).
    assert (is_finite q = true) as Fq by (rewrite <- H; reflexivity).
    rewrite H. rewrite (py_int_spec q Fq) by (rewrite VQ; lra).
    eexists. split; [reflexivity |]. split; [reflexivity |].
    rewrite <- VQ in Lo. apply Qfloor_resp_le in Lo. rewrite Qfloor_Z in Lo. exact Lo.
  - right. split; reflexivity.
Qed.

Lemma float_truediv_in_0_1 (x fill_ratio : float) :
  in_0_1 fill_ratio = true ->
  float_truediv x fill_ratio = Ok (SFdiv prec emax x fill_ratio).
Proof.
  intro Hr. destruct (in_0_1_value _ Hr) as (mr & er & -> & _). reflexivity.
Qed.

(** The partial-content branch, step by step: it raises what [int] raises on
    the quotient; otherwise it returns the box cut from the crop side and the
    two offsets [(left + right - crop_side) / 2] and
    [(top + bottom - crop_side) / 2], each rounded to the nearest integer
    (ties to even) and moved into the image. *)
Theorem partial_crop_exact (image : Image) (l t r b : Z) (fill_ratio : float) :
  wf_image image = true -> im_bbox image = Some (l, t, r, b) ->
  box_eqb (l, t, r, b) (full_box image) = false ->
  in_0_1 fill_ratio = true ->
  match py_int (target_quotient (l, t, r, b) fill_ratio) with
  | Raise e => crop_box_of image fill_ratio = Raise e
  | Ok target =>
      let crop_side :=
        Z.max (content_side_of (l, t, r, b)) (Z.min (min_dim_of image) target) in
      let x := rne_Q (inject_Z (l + r - crop_side) * (1 # 2)) in
      let y := rne_Q (inject_Z (t + b - crop_side) * (1 # 2)) in
      let crop_left := Z.max 0 (Z.min (im_width image - crop_side) x) in
      let crop_top := Z.max 0 (Z.min (im_height image - crop_side) y) in
      crop_box_of image fill_ratio =
        Ok (crop_left, crop_top, crop_left + crop_side, crop_top + crop_side)
  end.
Proof.
  intros Wf E NF Hr.
  destruct (wf_image_dims _ Wf) as [Hw Hh].
  pose proof (wf_image_bbox _ _ _ _ _ Wf E) as Hb.
  pose proof (content_side_bounds _ _ _ _ _ Wf E) as Hc.
  assert (2 ^ 52 < 2 ^ 53) as P by reflexivity.
  unfold crop_box_of. rewrite E. unfold full_box in NF. rewrite NF.
  change (Z.max (Z.max 1 (r - l)) (Z.max 1 (b - t))) with (content_side_of (l, t, r, b)).
  fold (min_dim_of image).
  unfold int_div_float. rewrite float_of_int_Z2F by lia. cbn [bind].
  rewrite (float_truediv_in_0_1 _ _ Hr). cbn [bind].
  fold (target_quotient (l, t, r, b) fill_ratio).
  destruct (py_int (target_quotient (l, t, r, b) fill_ratio)) as [target | e];
    cbn [bind]; [| reflexivity].
  cbv zeta.
  set (crop_side := Z.max (content_side_of (l, t, r, b)) (Z.min (min_dim_of image) target)).
  assert (0 <= crop_side < 2 ^ 53) as Hs by (subst crop_side; unfold min_dim_of; lia).
  destruct (round_offset_spec (l + r) crop_side ltac:(lia) Hs) as (cx & hx & Ecx & Ehx & Ex).
  destruct (round_offset_spec (t + b) crop_side ltac:(lia) Hs) as (cy & hy & Ecy & Ehy & Ey).
  rewrite Ecx, Ecy. cbn [bind]. rewrite Ehx. cbn [bind]. rewrite Ex. cbn [bind].
  assert (hy = hx) as -> by congruence. rewrite Ey. cbn [bind]. reflexivity.
Qed.

(** The same, keeping of the two offsets only that each is within one half
    of the exact value. *)
Lemma partial_crop_spec (image : Image) (l t r b : Z) (fill_ratio : float) :
  wf_image image = true -> im_bbox image = Some (l, t, r, b) ->
  box_eqb (l, t, r, b) (full_box image) = false ->
  in_0_1 fill_ratio = true ->
  match py_int (target_quotient (l, t, r, b) fill_ratio) with
  | Raise e => crop_box_of image fill_ratio = Raise e
  | Ok target =>
      let crop_side :=
        Z.max (content_side_of (l, t, r, b)) (Z.min (min_dim_of image) target) in
      exists x y,
        2 * x - 1 <= l + r - crop_side <= 2 * x + 1 /\
        2 * y - 1 <= t + b - crop_side <= 2 * y + 1 /\
        crop_box_of image fill_ratio =
          Ok (let crop_left := Z.max 0 (Z.min (im_width image - crop_side) x) in
              let crop_top := Z.max 0 (Z.min (im_height image - crop_side) y) in
              (crop_left, crop_top, crop_left + crop_side, crop_top + crop_side))
  end.
Proof.
  intros Wf E NF Hr. pose proof (partial_crop_exact _ _ _ _ _ _ Wf E NF Hr) as S.
  destruct (py_int (target_quotient (l, t, r, b) fill_ratio)) as [target | e];
    [| exact S].
  cbv zeta in *. eexists. eexists.
  split; [apply rne_half_bounds |]. split; [apply rne_half_bounds |]. exact S.
Qed.

(** * Properties of the crop box *)

Ltac invert_partial Wf E NF Hr Hbox :=
  let S := fresh "S" in
  pose proof (partial_crop_spec _ _ _ _ _ _ Wf E NF Hr) as S;
  let target := fresh "target" in
  let e := fresh "e" in
  let Et := fresh "Et" in
  destruct (py_int (target_quotient _ _)) as [target | e] eqn:Et;
  [ let x := fresh "x" in let y := fresh "y" in
    let Bx := fresh "Bx" in let By := fresh "By" in let Eq := fresh "Eq" in
    destruct S as (x & y & Bx & By & Eq); cbv zeta in Eq;
    rewrite Hbox in Eq; injection Eq as ? ? ? ?
  | rewrite Hbox in S; discriminate S ].

Lemma partial_not_full (image : Image) (bb : box) :
  partial_content image = true -> im_bbox image = Some bb ->
  box_eqb bb (full_box image) = false.
Proof.
  unfold partial_content. intros P E. rewrite E in P.
  apply negb_true_iff in P. exact P.
Qed.

Lemma crop_box_of_fixed (image : Image) (fill_ratio : float) :
  partial_content image = false ->
  crop_box_of image fill_ratio =
    fixed_ratio_crop (im_width image) (im_height image) fill_ratio.
Proof.
  unfold partial_content, crop_box_of. destruct (im_bbox image) as [[[[l t] r] b] |].
  - intro H. apply negb_false_iff in H. unfold full_box in H. rewrite H. reflexivity.
  - reflexivity.
Qed.


(** C2.  For every partial-content image and every fill ratio in (0,1], the
    crop box computed by [build_prepared_icon] contains the alpha bounding
    box: [crop_left <= left], [crop_top <= top], [right <= crop_right] and
    [bottom <= crop_bottom]. *)
Theorem crop_box_contains_bbox (image : Image) (fill_ratio : float)
    (l t r b cl ct cr cb : Z) :
  wf_image image = true -> in_0_1 fill_ratio = true ->
  im_bbox image = Some (l, t, r, b) -> partial_content image = true ->
  crop_box_of image fill_ratio = Ok (cl, ct, cr, cb) ->
  cl <= l /\ ct <= t /\ r <= cr /\ b <= cb.
Proof.
  intros Wf Hr E P Hbox. destruct (wf_image_dims _ Wf) as [Hw Hh].
  pose proof (partial_not_full _ _ P E) as NF.
  pose proof (wf_image_bbox _ _ _ _ _ Wf E) as Hb.
  invert_partial Wf E NF Hr Hbox.
  unfold content_side_of, min_dim_of in *. subst. lia.
Qed.

(** C3 (amended).  For every partial-content image and every fill ratio in
    (0,1], the crop side is
    [max(content_side, min(min_dim, int(content_side / fill_ratio)))], with
    each content dimension floored to 1 and the quotient truncated: never
    below [content_side]; the quotient clamped between [content_side] and
    [min_dim] when [content_side <= min_dim]; and [content_side] itself, above
    [min_dim], otherwise. *)
Theorem crop_side_clamped (image : Image) (fill_ratio : float) (bb bx : box) :
  wf_image image = true -> in_0_1 fill_ratio = true ->
  im_bbox image = Some bb -> partial_content image = true ->
  crop_box_of image fill_ratio = Ok bx ->
  exists target,
    py_int (target_quotient bb fill_ratio) = Ok target /\
    target = Qfloor (B2Q (target_quotient bb fill_ratio)) /\
    box_width bx = Z.max (content_side_of bb) (Z.min (min_dim_of image) target) /\
    box_height bx = box_width bx /\
    content_side_of bb <= box_width bx /\
    (content_side_of bb <= min_dim_of image ->
     box_width bx = clamp_between (content_side_of bb) (min_dim_of image) target) /\
    (min_dim_of image < content_side_of bb -> box_width bx = content_side_of bb).
Proof.
  intros Wf Hr E P Hbox. destruct bb as [[[l t] r] b].
  pose proof (partial_not_full _ _ P E) as NF.
  pose proof (content_side_bounds _ _ _ _ _ Wf E) as Hc.
  assert (2 ^ 52 < 2 ^ 53) as P53 by reflexivity.
  destruct (target_quotient_cases (l, t, r, b) fill_ratio ltac:(lia) Hr)
    as [(tg & Etg & Vtg & Ltg) | [_ Einf]].
  - exists tg. split; [exact Etg |]. split; [exact Vtg |].
    pose proof (partial_crop_spec _ _ _ _ _ _ Wf E NF Hr) as S.
    rewrite Etg in S. destruct S as (x & y & _ & _ & Eq). cbv zeta in Eq.
    rewrite Hbox in Eq. injection Eq as ->.
    unfold box_width, box_height, clamp_between, content_side_of in *.
    set (cs := Z.max (Z.max 1 (r - l)) (Z.max 1 (b - t))) in *.
    set (md := min_dim_of image) in *.
    repeat split; try lia.
    intro H. destruct (Z.ltb_spec tg cs); [lia |]. destruct (Z.ltb_spec md tg); lia.
  - pose proof (partial_crop_spec _ _ _ _ _ _ Wf E NF Hr) as S.
    rewrite Einf in S. congruence.
Qed.

(** C4 (amended).  For every fully transparent image and every fully opaque
    image of size W x H, and every fill ratio in (0,1], the crop box is the
    centered square of side [max(1, floor(min(W,H) * fill_ratio))], the
    product being the float product.  That square is the full image only when
    the image is square and the side equals its width. *)
Theorem fixed_ratio_centered_square (image : Image) (fill_ratio : float) :
  wf_image image = true -> in_0_1 fill_ratio = true ->
  im_bbox image = None \/ im_bbox image = Some (full_box image) ->
  let side := fixed_ratio_side image fill_ratio in
  let left := (im_width image - side) / 2 in
  let top := (im_height image - side) / 2 in
  crop_box_of image fill_ratio = Ok (left, top, left + side, top + side) /\
  1 <= side <= min_dim_of image /\
  0 <= (im_width image - (left + side)) - left <= 1 /\
  0 <= (im_height image - (top + side)) - top <= 1 /\
  ((left, top, left + side, top + side) = full_box image <->
   side = im_width image /\ side = im_height image).
Proof.
  intros Wf Hr Hb side left top.
  assert (partial_content image = false) as P.
  { unfold partial_content. destruct Hb as [-> | ->]; [reflexivity |].
    apply negb_false_iff, box_eqb_eq. reflexivity. }
  rewrite (crop_box_of_fixed _ _ P).
  destruct (fixed_ratio_crop_spec image fill_ratio Wf Hr) as [Eq Hs].
  split; [exact Eq |]. split; [exact Hs |].
  subst left top. fold side in Hs. unfold full_box.
  pose proof (Z.div_mod (im_width image - side) 2 ltac:(lia)).
  pose proof (Z.mod_pos_bound (im_width image - side) 2 ltac:(lia)).
  pose proof (Z.div_mod (im_height image - side) 2 ltac:(lia)).
  pose proof (Z.mod_pos_bound (im_height image - side) 2 ltac:(lia)).
  split; [lia |]. split; [lia |]. split.
  - intro E. injection E as E1 E2 E3 E4. lia.
  - intros [E1 E2].
    replace (im_width image - side) with 0 by lia.
    replace (im_height image - side) with 0 by lia.
    cbn [Z.div Z.div_eucl fst]. repeat f_equal; lia.
Qed.

(** C5.  On the 200 x 100 image whose content occupies the pixel rectangle
    (50,20)-(150,80), with fill ratio 0.5: [content_side = 100], the target
    side is 200, clamped to [min_dim = 100], and the crop box is
    (50, 0, 150, 100). *)
Theorem banner_example :
  content_side_of (50, 20, 150, 80) = 100 /\
  py_int (target_quotient (50, 20, 150, 80) float_half) = Ok 200 /\
  min_dim_of banner_image = 100 /\
  Z.max 100 (Z.min 100 200) = 100 /\
  crop_box_of banner_image float_half = Ok (50, 0, 150, 100).
Proof. repeat split; vm_compute; reflexivity. Qed.

Lemma Qdiv_antitone (c u v : Q) :
  (0 < c)%Q -> (0 < u)%Q -> (u <= v)%Q -> (c / v <= c / u)%Q.
Proof.
  intros Hc Hu Huv.
  apply Qle_shift_div_r; [lra |].
  apply Qle_trans with (c / u * u)%Q.
  - assert (c / u * u == c)%Q as -> by (field; lra). apply Qle_refl.
  - assert (0 <= c / u)%Q by (apply Qle_shift_div_l; [exact Hu | lra]).
    nra.
Qed.

(** The truncated quotient does not grow with the fill ratio. *)
Theorem target_side_antitone (bb : box) (r1 r2 : float) (t1 : Z) :
  1 <= content_side_of bb < 2 ^ 53 ->
  in_0_1 r1 = true -> in_0_1 r2 = true -> SFleb r1 r2 = true ->
  py_int (target_quotient bb r1) = Ok t1 ->
  exists t2, py_int (target_quotient bb r2) = Ok t2 /\ t2 <= t1.
Proof.
  intros Hc H1 H2 Hle E1.
  destruct (in_0_1_value _ H1) as (m1 & e1 & -> & Bd1 & V1).
  destruct (in_0_1_value _ H2) as (m2 & e2 & -> & Bd2 & V2).
  pose proof (SFleb_value _ _ _ _ Bd1 Bd2 Hle) as V12.
  unfold target_quotient in *.
  set (c := content_side_of bb) in *.
  destruct (quotient_spec c m1 e1 ltac:(lia) V1) as (k1 & B1 & L1 & D1).
  destruct (quotient_spec c m2 e2 ltac:(lia) V2) as (k2 & B2 & L2 & D2).
  cbv zeta in *.
  set (q1 := SFdiv prec emax (Z2F c) (S754_finite false m1 e1)) in *.
  set (q2 := SFdiv prec emax (Z2F c) (S754_finite false m2 e2)) in *.
  set (X1 := (inject_Z c / (inject_Z (Zpos m1) * bpow e1))%Q) in *.
  set (X2 := (inject_Z c / (inject_Z (Zpos m2) * bpow e2))%Q) in *.
  assert (0 < inject_Z c)%Q as Cpos by (apply inject_Z_pos; lia).
  assert (X2 <= X1)%Q as HX
    by (apply Qdiv_antitone; [exact Cpos | apply pos_value_positive | exact V12]).
  pose proof (rnd_at_mono _ _ _ _ B2 B1 HX) as Mono.
  assert (rnd_at k1 X1 < bpow emax)%Q as U1.
  { inversion D1 as [Z0 | m e Vq U | I]; [lra | exact U |].
    rewrite <- H in E1. discriminate E1. }
  destruct (describes_pos_value _ _ D1 U1) as [F1 Q1].
  destruct (describes_pos_value _ _ D2 ltac:(lra)) as [F2 Q2].
  rewrite (py_int_spec q1 F1) in E1 by (rewrite Q1; lra).
  injection E1 as <-.
  rewrite (py_int_spec q2 F2) by (rewrite Q2; lra).
  eexists. split; [reflexivity |].
  apply Qfloor_resp_le. rewrite Q1, Q2. exact Mono.
Qed.


Ltac bind_inv H :=
  repeat (let a := fresh "a" in let Ea := fresh "Ea" in
          apply bind_Ok_inv in H; destruct H as (a & Ea & H)).

(** Whatever the inputs, a computed crop box is [side] wide and high for
    some [side >= 1]. *)
Lemma crop_box_shape (image : Image) (fill_ratio : float) (cl ct cr cb : Z) :
  crop_box_of image fill_ratio = Ok (cl, ct, cr, cb) ->
  exists side, 1 <= side /\ cr = cl + side /\ cb = ct + side.
Proof.
  intro H. unfold crop_box_of in H.
  assert (forall w h, fixed_ratio_crop w h fill_ratio = Ok (cl, ct, cr, cb) ->
            exists side, 1 <= side /\ cr = cl + side /\ cb = ct + side) as Fixed.
  { intros w h F. unfold fixed_ratio_crop in F. bind_inv F.
    unfold centered_square_crop_bounds in F. injection F as <- <- <- <-.
    eexists. split; [| split; reflexivity]. lia. }
  destruct (im_bbox image) as [[[[l t] r] b] |]; [| eapply Fixed; exact H].
  destruct (box_eqb _ _); [eapply Fixed; exact H |].
  bind_inv H. injection H as <- <- <- <-.
  eexists. split; [| split; reflexivity]. lia.
Qed.


(** C8.  On every branch (transparent, opaque, partial content) a crop box
    computed by [build_prepared_icon] is a square of positive side:
    [right - left = bottom - top] and [right - left >= 1]. *)
Theorem crop_box_square (image : Image) (fill_ratio : float) (cl ct cr cb : Z) :
  crop_box_of image fill_ratio = Ok (cl, ct, cr, cb) ->
  cr - cl = cb - ct /\ 1 <= cr - cl.
Proof.
  intro H. destruct (crop_box_shape _ _ _ _ _ _ H) as (side & Hs & -> & ->). lia.
Qed.

(** ** When a crop box is computed, and which *)

(** Partial-content images: the crop computation returns a box, or the
    quotient [content_side / fill_ratio] overflowed to infinity and [int]
    raised [OverflowError]. *)
Theorem crop_box_overflow (image : Image) (bb : box) (fill_ratio : float) :
  wf_image image = true -> im_bbox image = Some bb ->
  partial_content image = true -> in_0_1 fill_ratio = true ->
  (exists bx, crop_box_of image fill_ratio = Ok bx /\
     is_finite (target_quotient bb fill_ratio) = true) \/
  (target_quotient bb fill_ratio = S754_infinity false /\
   crop_box_of image fill_ratio = Raise OverflowError).
Proof.
  intros Wf E P Hr. destruct bb as [[[l t] r] b].
  pose proof (partial_not_full _ _ P E) as NF.
  pose proof (content_side_bounds _ _ _ _ _ Wf E) as Hc.
  assert (2 ^ 52 < 2 ^ 53) as P53 by reflexivity.
  pose proof (partial_crop_spec _ _ _ _ _ _ Wf E NF Hr) as S.
  destruct (target_quotient_cases (l, t, r, b) fill_ratio ltac:(lia) Hr)
    as [(tg & Etg & _ & _) | [Einf Eraise]].
  - left. rewrite Etg in S. destruct S as (x & y & _ & _ & Eq).
    eexists. split; [exact Eq |].
    destruct (target_quotient (l, t, r, b) fill_ratio); try discriminate; reflexivity.
  - right. rewrite Eraise in S. split; assumption.
Qed.

(** Partial-content images, in exact arithmetic: the float computation of the
    two centre offsets loses nothing, so the crop box is given by the crop
    side and by [(left + right - crop_side) / 2] and
    [(top + bottom - crop_side) / 2] rounded to the nearest integer (ties to
    even) and then moved into [[0, width - crop_side]] and
    [[0, height - crop_side]], the lower end winning. *)
Theorem crop_box_partial_formula (image : Image) (l t r b : Z)
    (fill_ratio : float) (target : Z) :
  wf_image image = true -> im_bbox image = Some (l, t, r, b) ->
  partial_content image = true -> in_0_1 fill_ratio = true ->
  py_int (target_quotient (l, t, r, b) fill_ratio) = Ok target ->
  let crop_side :=
    Z.max (content_side_of (l, t, r, b)) (Z.min (min_dim_of image) target) in
  let crop_left :=
    Z.max 0 (Z.min (im_width image - crop_side)
               (rne_Q (inject_Z (l + r - crop_side) * (1 # 2)))) in
  let crop_top :=
    Z.max 0 (Z.min (im_height image - crop_side)
               (rne_Q (inject_Z (t + b - crop_side) * (1 # 2)))) in
  crop_box_of image fill_ratio =
    Ok (crop_left, crop_top, crop_left + crop_side, crop_top + crop_side).
Proof.
  intros Wf E P Hr Et.
  pose proof (partial_crop_exact _ _ _ _ _ _ Wf E (partial_not_full _ _ P E) Hr) as S.
  rewrite Et in S. exact S.
Qed.

(** For fill ratios from [2^-970] up the quotient cannot overflow. *)
Lemma target_quotient_finite (bb : box) (fill_ratio : float) :
  1 <= content_side_of bb < 2 ^ 52 -> in_0_1 fill_ratio = true ->
  SFleb float_2m970 fill_ratio = true ->
  is_finite (target_quotient bb fill_ratio) = true.
Proof.
  intros Hc Hr Hlo. destruct (in_0_1_value _ Hr) as (mr & er & -> & Bd & V).
  pose proof (SFleb_value 4503599627370496 mr (-1022) er eq_refl Bd Hlo) as Vlo.
  assert (inject_Z (Zpos 4503599627370496) * bpow (-1022) == bpow (-970))%Q as E970
    by (rewrite <- (bpow_Z 52), <- bpow_add by lia; reflexivity).
  rewrite E970 in Vlo.
  assert (2 ^ 52 < 2 ^ 53) as P53 by reflexivity.
  unfold target_quotient.
  destruct (quotient_spec (content_side_of bb) mr er ltac:(lia) V) as (k & B & _ & Dsc).
  cbv zeta in *.
  set (X := (inject_Z (content_side_of bb) / (inject_Z (Zpos mr) * bpow er))%Q) in *.
  assert (X <= bpow 1022)%Q as XU.
  { subst X. apply Qle_shift_div_r; [apply pos_value_positive |].
    apply Qle_trans with (bpow 1022 * bpow (-970))%Q.
    - rewrite <- bpow_add. change (1022 + -970) with 52.
      rewrite (bpow_Z 52) by lia. rewrite <- Zle_Qle. lia.
    - apply Qmult_le_l; [apply bpow_pos | exact Vlo]. }
  assert (in_binade 1023 (bpow 1022)) as B'
    by (split; [apply Qle_refl | apply bpow_lt; lia]).
  assert (rnd_at 1023 (bpow 1022) == bpow 1022)%Q as Ex.
  { apply (rnd_at_exact _ _ 1 1022); [change (inject_Z 1) with 1%Q; ring |].
    rewrite fexp64_eq. lia. }
  pose proof (rnd_at_mono _ _ _ _ B B' XU) as Mono. rewrite Ex in Mono.
  assert (bpow 1022 < bpow emax)%Q as Top by (apply bpow_lt; unfold emax; lia).
  destruct (describes_pos_value _ _ Dsc ltac:(lra)) as [F _]. exact F.
Qed.


(** ** The properties on sample inputs *)



Lemma crop_box_contains_bbox_witness :
  wf_image banner_image = true /\ in_0_1 float_half = true /\
  partial_content banner_image = true /\
  crop_box_of banner_image float_half = Ok (50, 0, 150, 100) /\
  (50 <= 50 /\ 0 <= 20 /\ 150 <= 150 /\ 80 <= 100).
Proof.
  assert (wf_image banner_image = true) as H1 by reflexivity.
  assert (in_0_1 float_half = true) as H2 by reflexivity.
  assert (partial_content banner_image = true) as H3 by reflexivity.
  assert (crop_box_of banner_image float_half = Ok (50, 0, 150, 100)) as H4
    by (vm_compute; reflexivity).
  exact (conj H1 (conj H2 (conj H3 (conj H4
    (crop_box_contains_bbox banner_image float_half 50 20 150 80 50 0 150 100
       H1 H2 eq_refl H3 H4))))).
Defined.

Lemma crop_side_clamped_witness :
  wf_image mark_image = true /\ in_0_1 float_half = true /\
  partial_content mark_image = true /\
  crop_box_of mark_image float_half = Ok (75, 70, 175, 170) /\
  exists target,
    py_int (target_quotient (100, 100, 150, 140) float_half) = Ok target /\
    target = Qfloor (B2Q (target_quotient (100, 100, 150, 140) float_half)) /\
    box_width (75, 70, 175, 170) =
      Z.max (content_side_of (100, 100, 150, 140)) (Z.min (min_dim_of mark_image) target) /\
    box_height (75, 70, 175, 170) = box_width (75, 70, 175, 170) /\
    content_side_of (100, 100, 150, 140) <= box_width (75, 70, 175, 170) /\
    (content_side_of (100, 100, 150, 140) <= min_dim_of mark_image ->
     box_width (75, 70, 175, 170) =
       clamp_between (content_side_of (100, 100, 150, 140)) (min_dim_of mark_image) target) /\
    (min_dim_of mark_image < content_side_of (100, 100, 150, 140) ->
     box_width (75, 70, 175, 170) = content_side_of (100, 100, 150, 140)).
Proof.
  assert (wf_image mark_image = true) as H1 by reflexivity.
  assert (in_0_1 float_half = true) as H2 by reflexivity.
  assert (partial_content mark_image = true) as H3 by reflexivity.
  assert (crop_box_of mark_image float_half = Ok (75, 70, 175, 170)) as H4
    by (vm_compute; reflexivity).
  exact (conj H1 (conj H2 (conj H3 (conj H4
    (crop_side_clamped mark_image float_half (100, 100, 150, 140) (75, 70, 175, 170)
       H1 H2 eq_refl H3 H4))))).
Defined.

(** C3 as stated fails: on the wide image the quotient is 400 and the crop
    side is 200, not a value clamped to at most [min_dim = 100]. *)
Lemma crop_side_above_min_dim :
  wf_image wide_image = true /\ in_0_1 float_half = true /\
  partial_content wide_image = true /\
  content_side_of (0, 20, 200, 80) = 200 /\ min_dim_of wide_image = 100 /\
  py_int (target_quotient (0, 20, 200, 80) float_half) = Ok 400 /\
  crop_box_of wide_image float_half = Ok (0, 0, 200, 200) /\
  box_width (0, 0, 200, 200) <> clamp_between 200 100 400 /\
  ~ (box_width (0, 0, 200, 200) <= min_dim_of wide_image).
Proof.
  split; [reflexivity |]. split; [reflexivity |]. split; [reflexivity |].
  split; [reflexivity |]. split; [reflexivity |].
  split; [vm_compute; reflexivity |]. split; [vm_compute; reflexivity |].
  split; [vm_compute; discriminate | cbn; lia].
Qed.

Lemma fixed_ratio_centered_square_witness :
  wf_image blank_image = true /\ in_0_1 default_fill_ratio = true /\
  let side := fixed_ratio_side blank_image default_fill_ratio in
  let left := (im_width blank_image - side) / 2 in
  let top := (im_height blank_image - side) / 2 in
  crop_box_of blank_image default_fill_ratio = Ok (left, top, left + side, top + side) /\
  1 <= side <= min_dim_of blank_image /\
  0 <= (im_width blank_image - (left + side)) - left <= 1 /\
  0 <= (im_height blank_image - (top + side)) - top <= 1 /\
  ((left, top, left + side, top + side) = full_box blank_image <->
   side = im_width blank_image /\ side = im_height blank_image).
Proof.
  assert (wf_image blank_image = true) as H1 by reflexivity.
  assert (in_0_1 default_fill_ratio = true) as H2 by reflexivity.
  exact (conj H1 (conj H2
    (fixed_ratio_centered_square blank_image default_fill_ratio H1 H2
       (or_introl eq_refl)))).
Defined.

(** C4 as stated fails in its last words: with fill ratio 1 the fixed-ratio
    square of a square opaque image is the full image. *)
Lemma opaque_square_full_crop :
  wf_image square_image = true /\ in_0_1 float_one = true /\
  im_bbox square_image = Some (full_box square_image) /\
  crop_box_of square_image float_one = Ok (full_box square_image).
Proof.
  split; [reflexivity |]. split; [reflexivity |]. split; [reflexivity |].
  vm_compute. reflexivity.
Qed.




Lemma crop_box_square_witness :
  crop_box_of mark_image default_fill_ratio = Ok (86, 81, 164, 159) /\
  164 - 86 = 159 - 81 /\ 1 <= 164 - 86.
Proof.
  assert (crop_box_of mark_image default_fill_ratio = Ok (86, 81, 164, 159)) as H
    by (vm_compute; reflexivity).
  exact (conj H (crop_box_square mark_image default_fill_ratio 86 81 164 159 H)).
Defined.

Lemma crop_box_overflow_witness :
  wf_image banner_image = true /\ partial_content banner_image = true /\
  in_0_1 float_tiny = true /\
  ((exists bx, crop_box_of banner_image float_tiny = Ok bx /\
      is_finite (target_quotient (50, 20, 150, 80) float_tiny) = true) \/
   (target_quotient (50, 20, 150, 80) float_tiny = S754_infinity false /\
    crop_box_of banner_image float_tiny = Raise OverflowError)).
Proof.
  assert (wf_image banner_image = true) as H1 by reflexivity.
  assert (partial_content banner_image = true) as H2 by reflexivity.
  assert (in_0_1 float_tiny = true) as H3 by reflexivity.
  exact (conj H1 (conj H2 (conj H3
    (crop_box_overflow banner_image (50, 20, 150, 80) float_tiny H1 eq_refl H2 H3)))).
Defined.

Lemma crop_box_partial_formula_witness :
  wf_image mark_image = true /\ partial_content mark_image = true /\
  in_0_1 default_fill_ratio = true /\
  py_int (target_quotient (100, 100, 150, 140) default_fill_ratio) = Ok 78 /\
  let crop_side :=
    Z.max (content_side_of (100, 100, 150, 140)) (Z.min (min_dim_of mark_image) 78) in
  let crop_left :=
    Z.max 0 (Z.min (im_width mark_image - crop_side)
               (rne_Q (inject_Z (100 + 150 - crop_side) * (1 # 2)))) in
  let crop_top :=
    Z.max 0 (Z.min (im_height mark_image - crop_side)
               (rne_Q (inject_Z (100 + 140 - crop_side) * (1 # 2)))) in
  crop_box_of mark_image default_fill_ratio =
    Ok (crop_left, crop_top, crop_left + crop_side, crop_top + crop_side).
Proof.
  assert (wf_image mark_image = true) as H1 by reflexivity.
  assert (partial_content mark_image = true) as H2 by reflexivity.
  assert (in_0_1 default_fill_ratio = true) as H3 by reflexivity.
  assert (py_int (target_quotient (100, 100, 150, 140) default_fill_ratio) = Ok 78) as H4
    by (vm_compute; reflexivity).
  exact (conj H1 (conj H2 (conj H3 (conj H4
    (crop_box_partial_formula mark_image 100 100 150 140 default_fill_ratio 78
       H1 eq_refl H2 H3 H4))))).
Defined.


(** The smallest positive double is a fill ratio in (0,1] on which the crop
    computation raises. *)
Example tiny_ratio_raises :
  in_0_1 float_tiny = true /\
  crop_box_of banner_image float_tiny = Raise OverflowError /\
  build_prepared_icon banner_image float_tiny = Raise OverflowError.
Proof. repeat split; vm_compute; reflexivity. Qed.

(** The constants are the doubles Python reads from [1.0], [0.5] and [0.64]. *)
Example float_constants :
  float_one = Z2F 1 /\ int_truediv 1 2 = Ok float_half /\
  int_truediv 64 100 = Ok default_fill_ratio.
Proof. repeat split; vm_compute; reflexivity. Qed.

(** Python's answers on a few inputs: [round(0.5)], [round(1.5)],
    [round(2.5)], [round(-1.5)], [int(-1.5)] and [int(6 * (1 / 3))]. *)
Example python_numerics :
  (x <- int_truediv 1 2 ;; py_round x) = Ok 0 /\
  (x <- int_truediv 3 2 ;; py_round x) = Ok 2 /\
  (x <- int_truediv 5 2 ;; py_round x) = Ok 2 /\
  (x <- int_truediv (-3) 2 ;; py_round x) = Ok (-2) /\
  (x <- int_truediv (-3) 2 ;; py_int x) = Ok (-1) /\
  (x <- int_truediv 1 3 ;; p <- int_mul_float 6 x ;; py_int p) = Ok 2.
Proof. repeat split; vm_compute; reflexivity. Qed.

(** The side of the fixed-ratio square is taken from the float product: with
    the double nearest to 1/3 on a 6 x 6 image the product rounds to 2.0 and
    the side is 2, although the exact product lies below 2. *)
Example float_product_rounds_up :
  in_0_1 float_third = true /\
  fixed_ratio_side small_blank_image float_third = 2 /\
  crop_box_of small_blank_image float_third = Ok (2, 2, 4, 4) /\
  Qfloor (inject_Z 6 * B2Q float_third) = 1.
Proof. repeat split; vm_compute; reflexivity. Qed.

(** ** [main] *)

Section ScriptProperties.

Variable path_str : string -> string.
Variable path_exists : string -> bool.
Variable float_of_string : string -> option float.
Variable mkdir_parents : string -> result unit.
Variable image_open : string -> result Image.
Variable save_icns : size -> string -> list size -> result unit.

Local Abbreviation run :=
  (main path_str path_exists float_of_string mkdir_parents image_open save_icns).
Local Abbreviation ratio_of := (fill_ratio_argument float_of_string).


(** C10.  With three arguments of which the last does not parse as a float,
    [float(sys.argv[3])] raises [ValueError] out of [main]: nothing is printed
    and no exit code is returned, whether or not the input path exists. *)
Theorem main_unparsed_fill_ratio (argv : list string) :
  List.length argv = 4%nat ->
  float_of_string (List.nth 3 argv EmptyString) = None ->
  run argv = raised ValueError.
Proof.
  intros Hlen Hparse. unfold main. rewrite Hlen. cbn [Nat.eqb negb orb].
  rewrite Hparse. reflexivity.
Qed.

End ScriptProperties.



Lemma main_unparsed_fill_ratio_witness :
  List.length bad_ratio_argv = 4%nat /\
  main (fun s => s) (fun _ => true) (fun _ => None) (fun _ => Ok tt)
    (fun _ => Raise OSError) (fun _ _ _ => Ok tt) bad_ratio_argv =
  raised ValueError.
Proof.
  split; [reflexivity |].
  apply (main_unparsed_fill_ratio (fun s => s) (fun _ => true) (fun _ => None)
           (fun _ => Ok tt) (fun _ => Raise OSError) (fun _ _ _ => Ok tt)
           bad_ratio_argv); reflexivity.
Defined.

(** * Beyond the specification *)

(** ** The rounding step keeps the sign and never returns a NaN *)

Lemma inb_exists (mrs : shr_record) : exists x, inb mrs x.
Proof.
  destruct mrs as [m r s]. unfold inb. cbn [shr_m shr_r shr_s].
  destruct r, s.
  - exists (inject_Z m + (3 # 4))%Q. lra.
  - exists (inject_Z m + (1 # 2))%Q. reflexivity.
  - exists (inject_Z m + (1 # 4))%Q. lra.
  - exists (inject_Z m). reflexivity.
Qed.

Lemma shr_nonneg (mrs : shr_record) (e n : Z) :
  0 <= shr_m mrs -> 0 <= shr_m (fst (shr mrs e n)).
Proof.
  intro Hm. destruct (Z_le_gt_dec n 0) as [Hn | Hn].
  - rewrite shr_nonpos by exact Hn. exact Hm.
  - destruct (inb_exists mrs) as [x Hx].
    destruct (shr_inb mrs x e n ltac:(lia) Hm Hx) as (_ & M & _). exact M.
Qed.

Lemma round_nearest_even_nonneg (m : Z) (l : location) :
  0 <= m -> 0 <= round_nearest_even m l.
Proof.
  intro Hm. unfold round_nearest_even.
  destruct l as [| c]; [exact Hm |]. destruct c; try destruct (Z.even m); lia.
Qed.

Lemma binary_round_aux_sign (s : bool) (mx ex : Z) (lx : location) :
  0 <= mx -> sign_of (binary_round_aux prec emax s mx ex lx) = Some s.
Proof.
  intro Hm. unfold binary_round_aux, shr_fexp.
  pose proof (shr_nonneg (shr_record_of_loc mx lx) ex
                (fexp prec emax (Zdigits2 mx + ex) - ex)) as N1.
  rewrite shr_m_of_loc in N1. specialize (N1 Hm).
  destruct (shr (shr_record_of_loc mx lx) ex _) as [mrs' e'].
  cbn [fst] in N1.
  pose proof (round_nearest_even_nonneg _ (loc_of_shr_record mrs') N1) as N2.
  set (m1 := round_nearest_even (shr_m mrs') (loc_of_shr_record mrs')) in *.
  pose proof (shr_nonneg (shr_record_of_loc m1 loc_Exact) e'
                (fexp prec emax (Zdigits2 m1 + e') - e')) as N3.
  rewrite shr_m_of_loc in N3. specialize (N3 N2).
  destruct (shr (shr_record_of_loc m1 loc_Exact) e' _) as [mrs'' e''].
  cbn [fst] in N3.
  destruct (shr_m mrs'') as [| p | p]; [reflexivity | | lia].
  destruct (e'' <=? emax - prec); reflexivity.
Qed.

Lemma signed_not_nan (f : float) (s : bool) : sign_of f = Some s -> is_nan f = false.
Proof. destruct f; intro H; try discriminate H; reflexivity. Qed.

(** The integer quotient that the division core hands to the rounding step
    is not negative. *)
Lemma SFdiv_core_nonneg (mx my : positive) (ex ey : Z) :
  0 <= fst (fst (SFdiv_core_binary prec emax (Zpos mx) ex (Zpos my) ey)).
Proof.
  unfold SFdiv_core_binary.
  set (e' := Z.min _ _). set (m' := match _ with Zpos _ => _ | 0 => _ | Zneg _ => _ end).
  assert (0 <= m') as Hm'.
  { subst m'. destruct (ex - ey - e') as [| p | p]; try lia.
    rewrite Z.shiftl_mul_pow2 by lia. apply Z.mul_nonneg_nonneg; [lia |].
    apply Z.pow_nonneg. lia. }
  clearbody m'.
  pose proof (Z_div_mod m' (Zpos my) ltac:(lia)) as DM.
  destruct (Z.div_eucl m' (Zpos my)) as [q r]. destruct DM as [Ha Hr].
  cbn [fst]. nia.
Qed.

(** The sign of a product or a quotient of a positive finite float and a
    float that is neither a zero nor a NaN is the sign of the latter. *)
Lemma SFmul_sign (m : positive) (e : Z) (y : float) (s : bool) :
  is_zero y = false -> sign_of y = Some s ->
  sign_of (SFmul prec emax (S754_finite false m e) y) = Some s.
Proof.
  destruct y as [sy | sy | | sy my ey]; cbn [is_zero sign_of]; intros NZ H;
    try discriminate; injection H as ->.
  - reflexivity.
  - cbn [SFmul xorb]. apply binary_round_aux_sign. lia.
Qed.

Lemma SFdiv_sign (m : positive) (e : Z) (y : float) (s : bool) :
  is_zero y = false -> sign_of y = Some s ->
  sign_of (SFdiv prec emax (S754_finite false m e) y) = Some s.
Proof.
  destruct y as [sy | sy | | sy my ey]; cbn [is_zero sign_of]; intros NZ H;
    try discriminate; injection H as ->.
  - reflexivity.
  - cbn [SFdiv xorb]. pose proof (SFdiv_core_nonneg m my e ey) as N.
    destruct (SFdiv_core_binary prec emax (Zpos m) e (Zpos my) ey) as [[mz ez] lz].
    apply binary_round_aux_sign. exact N.
Qed.

(** A product or a quotient with a positive finite first operand is a NaN
    only when the second operand is one; dividing by zero is left out, Python
    raising before it divides. *)
Lemma SFmul_nan (m : positive) (e : Z) (y : float) :
  is_nan (SFmul prec emax (S754_finite false m e) y) = is_nan y.
Proof.
  destruct y as [s | s | | s my ey]; try reflexivity.
  apply (signed_not_nan _ s), SFmul_sign; reflexivity.
Qed.

Lemma SFdiv_nan (m : positive) (e : Z) (y : float) :
  is_nan (SFdiv prec emax (S754_finite false m e) y) = is_nan y.
Proof.
  destruct y as [s | s | | s my ey]; try reflexivity.
  apply (signed_not_nan _ s), SFdiv_sign; reflexivity.
Qed.

(** ** Division, also where the quotient is subnormal *)

(** As [SFdiv_spec], for every quotient whose integer part at the working
    exponent is positive. *)
Theorem SFdiv_spec_low (mx my : positive) (ex ey : Z) :
  Zpos (digits2_pos my) - Zpos (digits2_pos mx) < ex - ey + 1074 ->
  let X := (inject_Z (Zpos mx) * bpow ex / (inject_Z (Zpos my) * bpow ey))%Q in
  exists k, in_binade k X /\
    describes false (rnd_at k X)
      (SFdiv prec emax (S754_finite false mx ex) (S754_finite false my ey)).
Proof.
  intros Hk X.
  destruct (Z_le_gt_dec (-1074) (Zpos (digits2_pos mx) + ex - (Zpos (digits2_pos my) + ey) - 53))
    as [Hn | Hu]; [apply SFdiv_spec; exact Hn |].
  cbn [SFdiv xorb]. unfold SFdiv_core_binary. cbn [Zdigits2].
  set (d1 := Zpos (digits2_pos mx)) in *. set (d2 := Zpos (digits2_pos my)) in *.
  fold (fexp64 (d1 + ex - (d2 + ey))). rewrite fexp64_eq.
  set (e' := Z.min (Z.max (d1 + ex - (d2 + ey) - 53) (-1074)) (ex - ey)).
  set (s := ex - ey - e').
  assert (0 <= s) as Hs by (subst s e'; lia).
  assert (d2 - d1 < s) as Hs' by (subst s e'; lia).
  assert (e' <= -1074) as He' by (subst e'; lia).
  set (m' := match s with Zpos _ => Z.shiftl (Zpos mx) s | 0 => Zpos mx | Zneg _ => 0 end).
  assert (m' = Zpos mx * 2 ^ s) as Hm'.
  { subst m'. destruct s as [| p | p]; [simpl; lia | | lia].
    apply Z.shiftl_mul_pow2. lia. }
  clearbody m'.
  pose proof (Z_div_mod m' (Zpos my) ltac:(lia)) as DM.
  destruct (Z.div_eucl m' (Zpos my)) as [q r]. destruct DM as [Ha Hr].
  pose proof (digits2_spec mx) as [Lo1 Hi1]. pose proof (digits2_spec my) as [Lo2 Hi2].
  fold d1 in Lo1, Hi1. fold d2 in Lo2, Hi2.
  assert (0 < d1) by (subst d1; lia). assert (0 < d2) by (subst d2; lia).
  assert (0 < q) as Qpos.
  { assert (2 ^ d2 <= m').
    { rewrite Hm'. apply Z.le_trans with (2 ^ (d1 - 1) * 2 ^ s).
      - rewrite <- Z.pow_add_r by lia. apply Z.pow_le_mono_r; lia.
      - apply Z.mul_le_mono_nonneg_r; [apply Z.pow_nonneg; lia | exact Lo1]. }
    destruct (Z_le_gt_dec q 0) as [L | G]; [exfalso; nia | lia]. }
  destruct q as [| pq | pq]; try lia.
  pose proof (new_location_inb m' (Zpos my) (Zpos pq) r ltac:(lia) Ha Hr) as IN.
  destruct (binary_round_aux_spec false (Zpos pq) e' (new_location (Zpos my) r) _
              Qpos IN) as [B D].
  - rewrite fexp64_eq. lia.
  - assert (inject_Z m' / inject_Z (Zpos my) * bpow e' == X)%Q as EX.
    { subst X. rewrite Hm', inject_Z_mult, <- (bpow_Z s) by lia.
      unfold s. rewrite !bpow_sub. field.
      repeat split; try apply bpow_nz.
      change 0%Q with (inject_Z 0). rewrite inject_Z_injective. lia. }
    exists (Zdigits2 (Zpos pq) + e'). split.
    + apply (in_binade_comp _ _ _ EX), B.
    + apply (describes_comp _ _ _ _ (rnd_at_comp _ _ _ EX)), D.
Qed.

(** ** The relative error of one rounding *)

Theorem rnd_at_error (k : Z) (X : Q) :
  in_binade k X -> -1074 <= k - 53 ->
  (X * (1 - bpow (-53)) <= rnd_at k X <= X * (1 + bpow (-53)))%Q.
Proof.
  intros [Lo Hi] Hk. unfold rnd_at. rewrite fexp64_eq.
  replace (Z.max (k - 53) (-1074)) with (k - 53) by lia.
  set (e := k - 53).
  destruct (rne_Q_bounds (X / bpow e)) as [B1 B2].
  set (n := inject_Z (rne_Q (X / bpow e))) in *.
  pose proof (bpow_pos e) as Epos.
  assert (X / bpow e * bpow e == X)%Q as EX by (field; apply bpow_nz).
  assert (bpow e * (1 # 2) <= X * bpow (-53))%Q as Half.
  { apply Qle_trans with (bpow (k - 1) * bpow (-53))%Q.
    - rewrite <- bpow_add. replace (k - 1 + -53) with (e + -1) by (subst e; lia).
      rewrite bpow_add. change (bpow (-1)) with (1 # 2)%Q. apply Qle_refl.
    - apply Qmult_bpow_le, Lo. }
  assert (n * bpow e <= X + bpow e * (1 # 2))%Q as U by nra.
  assert (X - bpow e * (1 # 2) <= n * bpow e)%Q as L by nra.
  split; lra.
Qed.

(** ** Any fill ratio *)

(** The partial-content branch for an arbitrary float: it raises what the
    division or [int] raises, and otherwise returns the box of
    [partial_crop_exact]. *)
Theorem partial_crop_any (image : Image) (l t r b : Z) (fill_ratio : float) :
  wf_image image = true -> im_bbox image = Some (l, t, r, b) ->
  box_eqb (l, t, r, b) (full_box image) = false ->
  match (q <- float_truediv (Z2F (content_side_of (l, t, r, b))) fill_ratio ;; py_int q) with
  | Raise e => crop_box_of image fill_ratio = Raise e
  | Ok target =>
      let crop_side :=
        Z.max (content_side_of (l, t, r, b)) (Z.min (min_dim_of image) target) in
      let x := rne_Q (inject_Z (l + r - crop_side) * (1 # 2)) in
      let y := rne_Q (inject_Z (t + b - crop_side) * (1 # 2)) in
      let crop_left := Z.max 0 (Z.min (im_width image - crop_side) x) in
      let crop_top := Z.max 0 (Z.min (im_height image - crop_side) y) in
      crop_box_of image fill_ratio =
        Ok (crop_left, crop_top, crop_left + crop_side, crop_top + crop_side)
  end.
Proof.
  intros Wf E NF.
  destruct (wf_image_dims _ Wf) as [Hw Hh].
  pose proof (wf_image_bbox _ _ _ _ _ Wf E) as Hb.
  pose proof (content_side_bounds _ _ _ _ _ Wf E) as Hc.
  assert (2 ^ 52 < 2 ^ 53) as P by reflexivity.
  unfold crop_box_of. rewrite E. unfold full_box in NF. rewrite NF.
  change (Z.max (Z.max 1 (r - l)) (Z.max 1 (b - t))) with (content_side_of (l, t, r, b)).
  fold (min_dim_of image).
  unfold int_div_float. rewrite float_of_int_Z2F by lia. cbn [bind].
  destruct (float_truediv (Z2F (content_side_of (l, t, r, b))) fill_ratio) as [q | e];
    cbn [bind]; [| reflexivity].
  destruct (py_int q) as [target | e]; cbn [bind]; [| reflexivity].
  cbv zeta.
  set (crop_side := Z.max (content_side_of (l, t, r, b)) (Z.min (min_dim_of image) target)).
  assert (0 <= crop_side < 2 ^ 53) as Hs by (subst crop_side; unfold min_dim_of; lia).
  destruct (round_offset_spec (l + r) crop_side ltac:(lia) Hs) as (cx & hx & Ecx & Ehx & Ex).
  destruct (round_offset_spec (t + b) crop_side ltac:(lia) Hs) as (cy & hy & Ecy & Ehy & Ey).
  rewrite Ecx, Ecy. cbn [bind]. rewrite Ehx. cbn [bind]. rewrite Ex. cbn [bind].
  assert (hy = hx) as -> by congruence. rewrite Ey. cbn [bind]. reflexivity.
Qed.

(** A computed box on partial content, whatever the fill ratio: its side and
    the two offsets it was cut from. *)
Lemma partial_box_any (image : Image) (l t r b : Z) (fill_ratio : float)
    (cl ct cr cb : Z) :
  wf_image image = true -> im_bbox image = Some (l, t, r, b) ->
  partial_content image = true ->
  crop_box_of image fill_ratio = Ok (cl, ct, cr, cb) ->
  exists side x y,
    content_side_of (l, t, r, b) <= side /\
    2 * x - 1 <= l + r - side <= 2 * x + 1 /\
    2 * y - 1 <= t + b - side <= 2 * y + 1 /\
    cl = Z.max 0 (Z.min (im_width image - side) x) /\
    ct = Z.max 0 (Z.min (im_height image - side) y) /\
    cr = cl + side /\ cb = ct + side.
Proof.
  intros Wf E P Hbox.
  pose proof (partial_crop_any _ _ _ _ _ fill_ratio Wf E (partial_not_full _ _ P E)) as S.
  destruct (q <- float_truediv _ fill_ratio ;; py_int q) as [target | e];
    [| rewrite Hbox in S; discriminate S].
  cbv zeta in S. rewrite Hbox in S. injection S as -> -> -> ->.
  eexists. eexists. eexists.
  split; [apply Z.le_max_l |].
  split; [apply rne_half_bounds |]. split; [apply rne_half_bounds |].
  repeat split.
Qed.

(** Partial content and any float as fill ratio, be it negative, above one
    or infinite: a computed crop box starts inside the image, contains the
    alpha bounding box and is at least [content_side] wide. *)
Theorem crop_box_never_cuts_content (image : Image) (fill_ratio : float)
    (l t r b cl ct cr cb : Z) :
  wf_image image = true -> im_bbox image = Some (l, t, r, b) ->
  partial_content image = true ->
  crop_box_of image fill_ratio = Ok (cl, ct, cr, cb) ->
  0 <= cl <= l /\ 0 <= ct <= t /\ r <= cr /\ b <= cb /\
  content_side_of (l, t, r, b) <= cr - cl.
Proof.
  intros Wf E P Hbox.
  pose proof (wf_image_bbox _ _ _ _ _ Wf E) as Hb.
  destruct (partial_box_any _ _ _ _ _ _ _ _ _ _ Wf E P Hbox)
    as (side & x & y & Hs & Bx & By & -> & -> & -> & ->).
  unfold content_side_of in *. lia.
Qed.

(** Partial content, any fill ratio.  In each direction: where the square of
    the crop side placed around the centre of the bounding box fits the image,
    the margins between crop box and bounding box differ by at most one pixel;
    where it would start before 0, the crop box starts at 0; where it would
    end beyond the image, the crop box ends at the image edge, or starts at 0
    when the crop side exceeds the image. *)
Theorem crop_box_centered (image : Image) (fill_ratio : float)
    (l t r b cl ct cr cb : Z) :
  wf_image image = true -> im_bbox image = Some (l, t, r, b) ->
  partial_content image = true ->
  crop_box_of image fill_ratio = Ok (cl, ct, cr, cb) ->
  let side := cr - cl in
  (side <= l + r -> l + r + side <= 2 * im_width image ->
   -1 <= (l - cl) - (cr - r) <= 1) /\
  (l + r < side -> cl = 0) /\
  (2 * im_width image < l + r + side -> cl = Z.max 0 (im_width image - side)) /\
  (side <= t + b -> t + b + side <= 2 * im_height image ->
   -1 <= (t - ct) - (cb - b) <= 1) /\
  (t + b < side -> ct = 0) /\
  (2 * im_height image < t + b + side -> ct = Z.max 0 (im_height image - side)).
Proof.
  intros Wf E P Hbox.
  destruct (partial_box_any _ _ _ _ _ _ _ _ _ _ Wf E P Hbox)
    as (side & x & y & Hs & Bx & By & -> & -> & -> & ->).
  cbv zeta.
  replace (Z.max 0 (Z.min (im_width image - side) x) + side
           - Z.max 0 (Z.min (im_width image - side) x)) with side by lia.
  repeat split; intros; lia.
Qed.

(** ** What [build_prepared_icon] raises *)

Lemma build_of_crop_box (image : Image) (fill_ratio : float) (bx : box) :
  crop_box_of image fill_ratio = Ok bx ->
  build_prepared_icon image fill_ratio = Ok (1024, 1024).
Proof.
  destruct bx as [[[cl ct] cr] cb]. intro H.
  unfold build_prepared_icon. rewrite H. cbn [bind].
  destruct (crop_box_shape _ _ _ _ _ _ H) as (side & Hs & -> & ->).
  unfold pil_crop.
  destruct (Z.ltb_spec (cl + side) cl); [lia |].
  destruct (Z.ltb_spec (ct + side) ct); [lia |]. reflexivity.
Qed.

Lemma build_of_crop_raise (image : Image) (fill_ratio : float) (e : exn) :
  crop_box_of image fill_ratio = Raise e ->
  build_prepared_icon image fill_ratio = Raise e.
Proof. intro H. unfold build_prepared_icon. rewrite H. reflexivity. Qed.

Lemma int_argument_fixed (image : Image) (fill_ratio : float) :
  partial_content image = false ->
  int_argument image fill_ratio = SFmul prec emax (Z2F (min_dim_of image)) fill_ratio.
Proof.
  unfold partial_content, int_argument. destruct (im_bbox image) as [bb |]; [| reflexivity].
  intro H. apply negb_false_iff in H. rewrite H. reflexivity.
Qed.

Lemma min_dim_bounds (image : Image) :
  wf_image image = true -> 0 < min_dim_of image < 2 ^ 52.
Proof. intro Wf. destruct (wf_image_dims _ Wf). unfold min_dim_of. lia. Qed.

(** The whole of [build_prepared_icon] in terms of the one float it hands to
    [int]: nothing else in it can fail. *)
Theorem build_prepared_icon_cases (image : Image) (fill_ratio : float) :
  wf_image image = true ->
  build_prepared_icon image fill_ratio =
    if partial_content image && is_zero fill_ratio then Raise ZeroDivisionError
    else match int_argument image fill_ratio with
         | S754_nan => Raise ValueError
         | S754_infinity _ => Raise OverflowError
         | _ => Ok (1024, 1024)
         end.
Proof.
  intro Wf. assert (2 ^ 52 < 2 ^ 53) as P53 by reflexivity.
  destruct (partial_content image) eqn:P; cbn [andb].
  - unfold partial_content in P.
    destruct (im_bbox image) as [[[[l t] r] b] |] eqn:E; [| discriminate].
    apply negb_true_iff in P.
    pose proof (partial_crop_any _ _ _ _ _ fill_ratio Wf E P) as S.
    unfold int_argument. rewrite E, P.
    unfold float_truediv in S. fold (target_quotient (l, t, r, b) fill_ratio) in S.
    destruct (is_zero fill_ratio); cbn [bind] in S.
    + apply build_of_crop_raise, S.
    + destruct (target_quotient (l, t, r, b) fill_ratio) as [s | s | | s m e];
        cbn [py_int] in S;
        solve [apply build_of_crop_raise, S | eapply build_of_crop_box; exact S].
  - rewrite (int_argument_fixed _ _ P).
    pose proof (min_dim_bounds _ Wf) as Hn.
    pose proof (crop_box_of_fixed image fill_ratio P) as S.
    unfold fixed_ratio_crop, int_mul_float in S. fold (min_dim_of image) in S.
    rewrite float_of_int_Z2F in S by lia. cbn [bind] in S.
    destruct (SFmul prec emax (Z2F (min_dim_of image)) fill_ratio) as [s | s | | s m e];
      cbn [py_int bind] in S;
      solve [apply build_of_crop_raise, S | eapply build_of_crop_box; exact S].
Qed.

Lemma int_argument_nan (image : Image) (fill_ratio : float) :
  wf_image image = true ->
  is_nan (int_argument image fill_ratio) = is_nan fill_ratio.
Proof.
  intro Wf. assert (2 ^ 52 < 2 ^ 53) as P53 by reflexivity.
  pose proof (min_dim_bounds _ Wf) as Hn.
  destruct (Z2F_pos (min_dim_of image) ltac:(lia)) as (m & e & Em & _).
  unfold int_argument.
  destruct (im_bbox image) as [[[[l t] r] b] |] eqn:E.
  - destruct (box_eqb _ _).
    + rewrite Em. apply SFmul_nan.
    + pose proof (content_side_bounds _ _ _ _ _ Wf E) as Hc.
      destruct (Z2F_pos (content_side_of (l, t, r, b)) ltac:(lia)) as (mc & ec & Ec & _).
      unfold target_quotient. rewrite Ec. apply SFdiv_nan.
  - rewrite Em. apply SFmul_nan.
Qed.


(** ** Fill ratios of one and more *)

(** A valid float not below [1.0] is plus infinity or a finite float of
    value at least one. *)
Lemma ge_1_value (r : float) :
  valid_binary prec emax r = true -> SFleb float_one r = true ->
  r = S754_infinity false \/
  exists m e, r = S754_finite false m e /\ bounded prec emax m e = true /\
    (1 <= inject_Z (Zpos m) * bpow e)%Q.
Proof.
  intros Hv Hle. destruct r as [s | s | | s m e]; try discriminate.
  - destruct s; [discriminate | left; reflexivity].
  - destruct s; [discriminate |]. right. cbn [valid_binary] in Hv.
    exists m, e. repeat split; [exact Hv |].
    pose proof (SFleb_value 4503599627370496 m (-52) e eq_refl Hv Hle) as V.
    assert (inject_Z (Zpos 4503599627370496) * bpow (-52) == 1)%Q as E1 by reflexivity.
    rewrite E1 in V. exact V.
Qed.

(** [content_side / fill_ratio] for a finite fill ratio of at least one: a
    finite float between zero and [content_side]. *)
Theorem quotient_ge_1 (c : Z) (mr : positive) (er : Z) :
  0 < c < 2 ^ 53 -> bounded prec emax mr er = true ->
  (1 <= inject_Z (Zpos mr) * bpow er)%Q ->
  let f := SFdiv prec emax (Z2F c) (S754_finite false mr er) in
  is_finite f = true /\ (0 <= B2Q f <= inject_Z c)%Q.
Proof.
  intros Hc Bd Hr f. subst f.
  destruct (Z2F_pos c Hc) as (m & e & -> & Dm & He & Vc).
  pose proof (bounded_digits mr er Bd) as Dr.
  assert (er <= 971) as Er.
  { unfold bounded in Bd. apply andb_true_iff in Bd. destruct Bd as [_ Bd].
    apply Z.leb_le in Bd. exact Bd. }
  destruct (SFdiv_spec_low m mr e er ltac:(lia)) as (k & B & Dsc). cbv zeta in *.
  set (X := (inject_Z (Zpos m) * bpow e / (inject_Z (Zpos mr) * bpow er))%Q) in *.
  assert (0 < inject_Z c)%Q as Cpos by (apply inject_Z_pos; lia).
  assert (0 <= X <= inject_Z c)%Q as [X0 XU].
  { subst X. rewrite Vc. split.
    - apply Qle_shift_div_l; lra.
    - apply Qle_shift_div_r; [lra | nra]. }
  destruct (int_in_binade c Hc) as (k' & B' & Ex).
  pose proof (rnd_at_mono _ _ _ _ B B' XU) as Mono. rewrite Ex in Mono.
  pose proof (rnd_at_nonneg k X X0) as Nonneg.
  pose proof (int_below_emax c ltac:(lia)) as Top.
  destruct (describes_pos_value _ _ Dsc ltac:(lra)) as [F V].
  split; [exact F |]. rewrite V. split; assumption.
Qed.

(** For a fill ratio of one or more the target side is at most the content
    side. *)
Lemma target_side_ge_1 (bb : box) (fill_ratio : float) :
  1 <= content_side_of bb < 2 ^ 53 ->
  valid_binary prec emax fill_ratio = true -> SFleb float_one fill_ratio = true ->
  exists target,
    (q <- float_truediv (Z2F (content_side_of bb)) fill_ratio ;; py_int q) = Ok target /\
    target <= content_side_of bb.
Proof.
  intros Hc Hv Hle.
  destruct (ge_1_value _ Hv Hle) as [-> | (m & e & -> & Bd & V)].
  - destruct (Z2F_pos (content_side_of bb) ltac:(lia)) as (mc & ec & -> & _).
    exists 0. split; [reflexivity | lia].
  - unfold float_truediv. cbn [is_zero bind].
    destruct (quotient_ge_1 (content_side_of bb) m e ltac:(lia) Bd V) as [F [Q0 Q1]].
    cbv zeta in *. rewrite (py_int_spec _ F Q0).
    eexists. split; [reflexivity |].
    apply Qfloor_resp_le in Q1. rewrite Qfloor_Z in Q1. exact Q1.
Qed.

(** Partial content and a fill ratio of [1.0] or more, plus infinity
    included: a crop box is computed and its side is [content_side] itself;
    in the direction in which the content is [content_side] long the crop box
    starts where the bounding box starts, so that for square content the crop
    box is the bounding box. *)
Theorem crop_tight_ratio_ge_1 (image : Image) (l t r b : Z) (fill_ratio : float) :
  wf_image image = true -> im_bbox image = Some (l, t, r, b) ->
  partial_content image = true ->
  valid_binary prec emax fill_ratio = true -> SFleb float_one fill_ratio = true ->
  let side := content_side_of (l, t, r, b) in
  exists cl ct,
    crop_box_of image fill_ratio = Ok (cl, ct, cl + side, ct + side) /\
    (r - l = side -> cl = l) /\ (b - t = side -> ct = t).
Proof.
  intros Wf E P Hv Hle side.
  pose proof (wf_image_bbox _ _ _ _ _ Wf E) as Hb.
  pose proof (content_side_bounds _ _ _ _ _ Wf E) as Hc.
  assert (2 ^ 52 < 2 ^ 53) as P53 by reflexivity.
  destruct (target_side_ge_1 (l, t, r, b) fill_ratio ltac:(lia) Hv Hle) as (tg & Etg & Htg).
  pose proof (partial_crop_any _ _ _ _ _ fill_ratio Wf E (partial_not_full _ _ P E)) as S.
  rewrite Etg in S. cbv zeta in S. fold side in S, Htg.
  replace (Z.max side (Z.min (min_dim_of image) tg)) with side in S by lia.
  eexists. eexists. split; [exact S |].
  split; intro Hs.
  - replace (l + r - side) with (2 * l) by lia.
    assert (inject_Z (2 * l) * (1 # 2) == inject_Z l)%Q as EQ
      by (rewrite inject_Z_mult; change (inject_Z 2) with 2%Q; ring).
    rewrite (rne_Q_comp _ _ EQ), rne_Q_Z. lia.
  - replace (t + b - side) with (2 * t) by lia.
    assert (inject_Z (2 * t) * (1 # 2) == inject_Z t)%Q as EQ
      by (rewrite inject_Z_mult; change (inject_Z 2) with 2%Q; ring).
    rewrite (rne_Q_comp _ _ EQ), rne_Q_Z. lia.
Qed.

(** ** The fixed-ratio side grows with the fill ratio *)

Lemma product_value (n : Z) (mr : positive) (er : Z) :
  0 < n < 2 ^ 53 -> (inject_Z (Zpos mr) * bpow er <= 1)%Q ->
  let X := (inject_Z n * (inject_Z (Zpos mr) * bpow er))%Q in
  let f := SFmul prec emax (Z2F n) (S754_finite false mr er) in
  exists k, in_binade k X /\ is_finite f = true /\ (B2Q f == rnd_at k X)%Q.
Proof.
  intros Hn Hr X f. subst f.
  destruct (Z2F_pos n Hn) as (m & e & -> & Dm & He & Vn).
  destruct (SFmul_spec m mr e er Dm) as (k & B & Dsc). cbv zeta in *.
  assert (inject_Z (Zpos m) * bpow e * (inject_Z (Zpos mr) * bpow er) == X)%Q as EX
    by (subst X; rewrite Vn; reflexivity).
  apply (in_binade_comp _ _ _ EX) in B.
  apply (describes_comp _ _ _ _ (rnd_at_comp _ _ _ EX)) in Dsc.
  pose proof (pos_value_positive mr er) as Rpos.
  assert (0 < inject_Z n)%Q as Npos by (apply inject_Z_pos; lia).
  assert (X <= inject_Z n)%Q as XU by (subst X; nra).
  destruct (int_in_binade n Hn) as (k' & B' & Ex).
  pose proof (rnd_at_mono _ _ _ _ B B' XU) as Mono. rewrite Ex in Mono.
  pose proof (int_below_emax n ltac:(lia)) as Top.
  destruct (describes_pos_value _ _ Dsc ltac:(lra)) as [F V].
  exists k. split; [exact B |]. split; [exact F | exact V].
Qed.

Lemma fixed_ratio_side_mono (image : Image) (r1 r2 : float) :
  wf_image image = true -> in_0_1 r1 = true -> in_0_1 r2 = true ->
  SFleb r1 r2 = true ->
  fixed_ratio_side image r1 <= fixed_ratio_side image r2.
Proof.
  intros Wf H1 H2 Hle.
  destruct (in_0_1_value _ H1) as (m1 & e1 & -> & Bd1 & V1).
  destruct (in_0_1_value _ H2) as (m2 & e2 & -> & Bd2 & V2).
  pose proof (SFleb_value _ _ _ _ Bd1 Bd2 Hle) as V12.
  pose proof (min_dim_bounds _ Wf) as Hn.
  assert (2 ^ 52 < 2 ^ 53) as P53 by reflexivity.
  destruct (product_value (min_dim_of image) m1 e1 ltac:(lia) V1) as (k1 & B1 & _ & Q1).
  destruct (product_value (min_dim_of image) m2 e2 ltac:(lia) V2) as (k2 & B2 & _ & Q2).
  cbv zeta in *. unfold fixed_ratio_side.
  apply Z.max_le_compat_l. apply Qfloor_resp_le. rewrite Q1, Q2.
  apply rnd_at_mono; [exact B1 | exact B2 |].
  assert (0 < inject_Z (min_dim_of image))%Q by (apply inject_Z_pos; lia).
  nra.
Qed.

(** Blank and opaque images: the crop side grows with the fill ratio, the
    opposite of what it does for partial content.  For fill ratios
    [r1 <= r2] in (0,1] both boxes are computed, inside the image, and the
    box for [r1] lies inside the box for [r2]. *)
Theorem fixed_ratio_crop_monotone (image : Image) (r1 r2 : float) :
  wf_image image = true -> partial_content image = false ->
  in_0_1 r1 = true -> in_0_1 r2 = true -> SFleb r1 r2 = true ->
  exists l1 t1 s1 l2 t2 s2,
    crop_box_of image r1 = Ok (l1, t1, l1 + s1, t1 + s1) /\
    crop_box_of image r2 = Ok (l2, t2, l2 + s2, t2 + s2) /\
    1 <= s1 <= s2 /\ s2 <= min_dim_of image /\
    0 <= l2 <= l1 /\ 0 <= t2 <= t1 /\
    l1 + s1 <= l2 + s2 <= im_width image /\ t1 + s1 <= t2 + s2 <= im_height image.
Proof.
  intros Wf P H1 H2 Hle.
  destruct (wf_image_dims _ Wf) as [Hw Hh].
  pose proof (fixed_ratio_side_mono _ _ _ Wf H1 H2 Hle) as Mono.
  destruct (fixed_ratio_crop_spec image r1 Wf H1) as [Eq1 Hs1].
  destruct (fixed_ratio_crop_spec image r2 Wf H2) as [Eq2 Hs2].
  rewrite <- (crop_box_of_fixed _ _ P) in Eq1. rewrite <- (crop_box_of_fixed _ _ P) in Eq2.
  unfold centered_square_crop_bounds in Eq1, Eq2.
  set (s1 := fixed_ratio_side image r1) in *. set (s2 := fixed_ratio_side image r2) in *.
  unfold min_dim_of in *.
  exists ((im_width image - s1) / 2), ((im_height image - s1) / 2), s1,
         ((im_width image - s2) / 2), ((im_height image - s2) / 2), s2.
  split; [exact Eq1 |]. split; [exact Eq2 |].
  pose proof (Z.div_mod (im_width image - s1) 2 ltac:(lia)).
  pose proof (Z.mod_pos_bound (im_width image - s1) 2 ltac:(lia)).
  pose proof (Z.div_mod (im_height image - s1) 2 ltac:(lia)).
  pose proof (Z.mod_pos_bound (im_height image - s1) 2 ltac:(lia)).
  pose proof (Z.div_mod (im_width image - s2) 2 ltac:(lia)).
  pose proof (Z.mod_pos_bound (im_width image - s2) 2 ltac:(lia)).
  pose proof (Z.div_mod (im_height image - s2) 2 ltac:(lia)).
  pose proof (Z.mod_pos_bound (im_height image - s2) 2 ltac:(lia)).
  lia.
Qed.

(** ** How closely the crop side follows the fill ratio *)

(** Partial content, fill ratio in (0,1]: the content fills the computed
    crop side to the fill ratio asked for, up to one rounding of the quotient
    and one pixel.  With [s] the crop side, [fill_ratio * s] is at most
    [content_side * (1 + 2^-53)]; and when [s] is below [min_dim],
    [fill_ratio * (s + 1)] is above [content_side * (1 - 2^-53)]. *)
Theorem crop_side_fill_accuracy (image : Image) (fill_ratio : float) (bb bx : box) :
  wf_image image = true -> in_0_1 fill_ratio = true ->
  im_bbox image = Some bb -> partial_content image = true ->
  crop_box_of image fill_ratio = Ok bx ->
  (B2Q fill_ratio * inject_Z (box_width bx) <=
   inject_Z (content_side_of bb) * (1 + bpow (-53)))%Q /\
  (box_width bx < min_dim_of image ->
   (inject_Z (content_side_of bb) * (1 - bpow (-53)) <
    B2Q fill_ratio * inject_Z (box_width bx + 1))%Q).
Proof.
  intros Wf Hr E P Hbox. destruct bb as [[[l t] r] b].
  pose proof (partial_not_full _ _ P E) as NF.
  pose proof (content_side_bounds _ _ _ _ _ Wf E) as Hc.
  assert (2 ^ 52 < 2 ^ 53) as P53 by reflexivity.
  pose proof (partial_crop_exact _ _ _ _ _ _ Wf E NF Hr) as S.
  destruct (in_0_1_value _ Hr) as (mr & er & -> & _ & V).
  unfold target_quotient in S.
  set (c := content_side_of (l, t, r, b)) in *.
  destruct (quotient_spec c mr er ltac:(lia) V) as (k & B & Lo & Dsc). cbv zeta in *.
  set (q := SFdiv prec emax (Z2F c) (S754_finite false mr er)) in *.
  set (rho := (inject_Z (Zpos mr) * bpow er)%Q) in *.
  set (X := (inject_Z c / rho)%Q) in *.
  pose proof (pos_value_positive mr er) as Rpos. fold rho in Rpos.
  assert (0 < inject_Z c)%Q as Cpos by (apply inject_Z_pos; lia).
  assert (X * rho == inject_Z c)%Q as EX by (subst X; field; lra).
  assert (rnd_at k X < bpow emax)%Q as U.
  { inversion Dsc as [Z0 | m e Vq Uq | I]; [lra | exact Uq |].
    rewrite <- H in S. cbn [py_int] in S. rewrite Hbox in S. discriminate S. }
  destruct (describes_pos_value _ _ Dsc U) as [F Q].
  rewrite (py_int_spec q F) in S by (rewrite Q; lra).
  cbv zeta in S. rewrite Hbox in S. injection S as ->.
  unfold box_width.
  set (tg := Qfloor (B2Q q)) in *.
  set (cl := Z.max 0 _).
  replace (cl + Z.max c (Z.min (min_dim_of image) tg) - cl)
    with (Z.max c (Z.min (min_dim_of image) tg)) by lia.
  assert (c <= tg) as Htg.
  { subst tg. rewrite <- (Qfloor_Z c). apply Qfloor_resp_le. rewrite Q. exact Lo. }
  assert (1 <= k) as Hk.
  { destruct B as [_ BU].
    assert (bpow 0 < bpow k)%Q as B0.
    { change (bpow 0) with 1%Q. apply Qle_lt_trans with (2 := BU).
      change 1%Q with (inject_Z 1). apply Qle_trans with (inject_Z c).
      - rewrite <- Zle_Qle. lia.
      - subst X. apply Qle_shift_div_l; [exact Rpos |]. nra. }
    apply bpow_lt_inv in B0. lia. }
  destruct (rnd_at_error k X B ltac:(lia)) as [EL EU].
  rewrite <- Q in EL, EU.
  pose proof (Qfloor_le (B2Q q)) as FL. pose proof (Qlt_floor (B2Q q)) as FU.
  fold tg in FL, FU.
  assert (0 < bpow (-53) < 1)%Q as [Eps0 Eps1] by (split; reflexivity).
  cbn [B2Q cond_Zopp]. fold rho.
  split.
  - apply Qle_trans with (rho * inject_Z tg)%Q.
    + apply Qmult_le_l; [exact Rpos |]. rewrite <- Zle_Qle. lia.
    + rewrite <- EX. nra.
  - intro Hlt.
    replace (Z.max c (Z.min (min_dim_of image) tg)) with tg by lia.
    rewrite <- EX. nra.
Qed.

(** ** The centered square, for any integers *)

(** [centered_square_crop_bounds] for any three integers: the box is [side]
    wide and high; the right margin is the left margin or one more, the
    bottom margin the top margin or one more; and the box lies within
    [[0, width]] exactly when [side <= width], within [[0, height]] exactly
    when [side <= height].  Nothing is clamped: for [side > width] the box
    starts left of 0. *)
Theorem centered_square_crop_bounds_spec (width height side : Z) :
  let '(l, t, r, b) := centered_square_crop_bounds width height side in
  r - l = side /\ b - t = side /\
  0 <= (width - r) - l <= 1 /\
  0 <= (height - b) - t <= 1 /\
  (0 <= l /\ r <= width <-> side <= width) /\
  (0 <= t /\ b <= height <-> side <= height).
Proof.
  unfold centered_square_crop_bounds.
  pose proof (Z.div_mod (width - side) 2 ltac:(lia)).
  pose proof (Z.mod_pos_bound (width - side) 2 ltac:(lia)).
  pose proof (Z.div_mod (height - side) 2 ltac:(lia)).
  pose proof (Z.mod_pos_bound (height - side) 2 ltac:(lia)).
  lia.
Qed.

(** ** How closely the fixed-ratio side follows the fill ratio *)

(** Blank and opaque images, fill ratio in (0,1]: the crop side is within
    one pixel and one rounding of the real product [min_dim * fill_ratio]:
    above [product * (1 - 2^-53) - 1], and either 1 or at most
    [product * (1 + 2^-53)]. *)
Theorem fixed_ratio_side_accuracy (image : Image) (fill_ratio : float) (bx : box) :
  wf_image image = true -> in_0_1 fill_ratio = true ->
  partial_content image = false ->
  crop_box_of image fill_ratio = Ok bx ->
  let product := (inject_Z (min_dim_of image) * B2Q fill_ratio)%Q in
  (product * (1 - bpow (-53)) - 1 < inject_Z (box_width bx))%Q /\
  (box_width bx = 1 \/
   (inject_Z (box_width bx) <= product * (1 + bpow (-53)))%Q).
Proof.
  intros Wf Hr P Hbox product.
  destruct (fixed_ratio_crop_spec image fill_ratio Wf Hr) as [Eq Hs].
  rewrite <- (crop_box_of_fixed _ _ P), Hbox in Eq. injection Eq as ->.
  unfold centered_square_crop_bounds, box_width.
  replace ((im_width image - fixed_ratio_side image fill_ratio) / 2 +
           fixed_ratio_side image fill_ratio -
           (im_width image - fixed_ratio_side image fill_ratio) / 2)
    with (fixed_ratio_side image fill_ratio) by lia.
  destruct (in_0_1_value _ Hr) as (mr & er & -> & _ & V).
  pose proof (min_dim_bounds _ Wf) as Hn.
  assert (2 ^ 52 < 2 ^ 53) as P53 by reflexivity.
  destruct (product_value (min_dim_of image) mr er ltac:(lia) V) as (k & B & F & Q).
  cbv zeta in Q, B, F. unfold fixed_ratio_side in *.
  set (f := SFmul prec emax (Z2F (min_dim_of image)) (S754_finite false mr er)) in *.
  cbn [B2Q cond_Zopp] in product. fold product in B, Q.
  pose proof (Qfloor_le (B2Q f)) as FL. pose proof (Qlt_floor (B2Q f)) as FU.
  set (fl := Qfloor (B2Q f)) in *.
  rewrite inject_Z_plus in FU. change (inject_Z 1) with 1%Q in FU.
  assert (0 < bpow (-53) < 1)%Q as [Eps0 Eps1] by (split; reflexivity).
  assert (0 < product)%Q as Ppos
    by (destruct B as [BL _]; apply Qlt_le_trans with (2 := BL), bpow_pos).
  assert (inject_Z fl <= inject_Z (Z.max 1 fl))%Q as M1 by (rewrite <- Zle_Qle; lia).
  assert (1 <= inject_Z (Z.max 1 fl))%Q as M2
    by (change 1%Q with (inject_Z 1); rewrite <- Zle_Qle; lia).
  destruct (Qlt_le_dec product 1) as [Small | Large].
  - split; [nra |]. left.
    destruct (int_in_binade 1 ltac:(lia)) as (k1 & B1 & E1).
    change (inject_Z 1) with 1%Q in B1, E1.
    pose proof (rnd_at_mono _ _ _ _ B B1 (Qlt_le_weak _ _ Small)) as Mono.
    rewrite E1, <- Q in Mono.
    apply Qfloor_resp_le in Mono. change (Qfloor 1) with 1 in Mono. fold fl in Mono. lia.
  - assert (1 <= k) as Hk.
    { destruct B as [_ BU]. assert (bpow 0 < bpow k)%Q as B0
        by (change (bpow 0) with 1%Q; lra).
      apply bpow_lt_inv in B0. lia. }
    destruct (rnd_at_error k product B ltac:(lia)) as [EL EU].
    rewrite <- Q in EL, EU.
    split; [lra |].
    destruct (Z_le_gt_dec fl 1) as [L1 | G1]; [left; lia | right].
    replace (Z.max 1 fl) with fl by lia. lra.
Qed.

(** ** Fill ratios of zero and less *)

(** [int] of a float with the sign bit set is zero or negative, unless the
    float is infinite. *)
Lemma py_int_negative (f : float) :
  sign_of f = Some true ->
  (exists n, py_int f = Ok n /\ n <= 0) \/
  (is_infinite f = true /\ py_int f = Raise OverflowError).
Proof.
  destruct f as [s | s | | s m e]; cbn [sign_of]; intro H;
    try discriminate H; injection H as ->.
  - left. exists 0. split; [reflexivity | lia].
  - right. split; reflexivity.
  - left. eexists. split; [reflexivity |]. cbn [cond_Zopp].
    assert (0 <= Z.shiftl (Zpos m) e) by (apply Z.shiftl_nonneg; lia). lia.
Qed.

(** A float that Python finds [<= 0.0]: a zero, or one with the sign bit
    set. *)
Lemma le_0_value (r : float) :
  SFleb r float_zero = true -> is_zero r = true \/ sign_of r = Some true.
Proof.
  destruct r as [s | s | | s m e]; intro H; try discriminate H.
  - left. reflexivity.
  - destruct s; [right; reflexivity | discriminate H].
  - destruct s; [right; reflexivity | discriminate H].
Qed.


(** ** Fill ratios of one and more on blank and opaque images *)

(** Blank and opaque images with a fill ratio of [1.0] or more: the crop side
    is at least [min_dim], so that the centered square covers the image in
    its shorter direction and, beyond a side of [min_dim], leaves it; or the
    product is infinite and [int] raises [OverflowError]. *)
Theorem fixed_ratio_ge_1 (image : Image) (fill_ratio : float) :
  wf_image image = true -> partial_content image = false ->
  valid_binary prec emax fill_ratio = true -> SFleb float_one fill_ratio = true ->
  (exists side,
     min_dim_of image <= side /\
     crop_box_of image fill_ratio =
       Ok (centered_square_crop_bounds (im_width image) (im_height image) side)) \/
  (is_infinite (int_argument image fill_ratio) = true /\
   crop_box_of image fill_ratio = Raise OverflowError).
Proof.
  intros Wf P Hv Hle. assert (2 ^ 52 < 2 ^ 53) as P53 by reflexivity.
  pose proof (min_dim_bounds _ Wf) as Hn.
  rewrite (int_argument_fixed _ _ P), (crop_box_of_fixed _ _ P).
  unfold fixed_ratio_crop, int_mul_float. fold (min_dim_of image).
  rewrite float_of_int_Z2F by lia. cbn [bind].
  destruct (Z2F_pos (min_dim_of image) ltac:(lia)) as (m & e & Em & Dm & He & Vn).
  rewrite Em.
  destruct (ge_1_value _ Hv Hle) as [-> | (mr & er & -> & Bd & V)].
  - right. split; reflexivity.
  - destruct (SFmul_spec m mr e er Dm) as (k & B & Dsc). cbv zeta in *.
    set (f := SFmul prec emax (S754_finite false m e) (S754_finite false mr er)) in *.
    set (X := (inject_Z (Zpos m) * bpow e * (inject_Z (Zpos mr) * bpow er))%Q) in *.
    assert (0 < inject_Z (min_dim_of image))%Q as Npos by (apply inject_Z_pos; lia).
    assert (inject_Z (min_dim_of image) <= X)%Q as XL by (subst X; rewrite Vn; nra).
    destruct (int_in_binade (min_dim_of image) ltac:(lia)) as (k' & B' & Ex).
    pose proof (rnd_at_mono _ _ _ _ B' B XL) as Mono. rewrite Ex in Mono.
    destruct (Qlt_le_dec (rnd_at k X) (bpow emax)) as [U | O].
    + left. destruct (describes_pos_value _ _ Dsc U) as [F Q].
      rewrite (py_int_spec f F) by (rewrite Q; lra). cbn [bind].
      eexists. split; [| reflexivity].
      apply Z.le_trans with (2 := Z.le_max_r _ _).
      rewrite <- (Qfloor_Z (min_dim_of image)). apply Qfloor_resp_le.
      rewrite Q. exact Mono.
    + right. inversion Dsc as [Z0 | m1 e1 V1 U1 | I]; [exfalso; lra | exfalso; lra |].
      split; reflexivity.
Qed.

(** ** [main] from end to end *)

(** For fill ratios between [2^-970] and 1 the float handed to [int] is
    finite, so that [build_prepared_icon] returns. *)
Lemma build_prepared_icon_ok (image : Image) (fill_ratio : float) :
  wf_image image = true -> in_0_1 fill_ratio = true ->
  SFleb float_2m970 fill_ratio = true ->
  build_prepared_icon image fill_ratio = Ok (1024, 1024).
Proof.
  intros Wf Hr Hlo.
  destruct (partial_content image) eqn:P.
  - unfold partial_content in P.
    destruct (im_bbox image) as [[[[l t] r] b] |] eqn:E; [| discriminate].
    apply negb_true_iff in P.
    pose proof (content_side_bounds _ _ _ _ _ Wf E) as Hc.
    pose proof (target_quotient_finite (l, t, r, b) fill_ratio Hc Hr Hlo) as F.
    pose proof (partial_crop_exact _ _ _ _ _ _ Wf E P Hr) as S.
    destruct (target_quotient (l, t, r, b) fill_ratio) as [s | s | | s m e];
      try discriminate F; cbn [py_int] in S; eapply build_of_crop_box; exact S.
  - destruct (fixed_ratio_crop_spec image fill_ratio Wf Hr) as [Eq _].
    rewrite <- (crop_box_of_fixed _ _ P) in Eq.
    eapply build_of_crop_box; exact Eq.
Qed.

(** An outcome other than success: status 1, and the condition for success
    does not hold. *)
Lemma failing_outcome (o : outcome) (S : Prop) :
  returned o = Ok 1 \/ (exists e, o = raised e) -> stdout o = [] -> ~ S ->
  (exit_status o = 0 \/ exit_status o = 1) /\
  (exit_status o = 0 <-> S) /\
  (exit_status o = 1 -> stdout o = []) /\
  (stderr o <> [] -> returned o = Ok 1).
Proof.
  intros Hret Hout Hno.
  assert (exit_status o = 1) as E1
    by (unfold exit_status; destruct Hret as [-> | [e ->]]; reflexivity).
  rewrite E1. split; [right; reflexivity |]. split; [| split].
  - split; [discriminate | intro H; contradiction].
  - intros _. exact Hout.
  - destruct Hret as [H | [e ->]]; [intros _; exact H |].
    intro H. exfalso. apply H. reflexivity.
Qed.

Section ScriptRuns.

Variable path_str : string -> string.
Variable path_exists : string -> bool.
Variable float_of_string : string -> option float.
Variable mkdir_parents : string -> result unit.
Variable image_open : string -> result Image.
Variable save_icns : size -> string -> list size -> result unit.

Local Abbreviation run :=
  (main path_str path_exists float_of_string mkdir_parents image_open save_icns).
Local Abbreviation ratio_of := (fill_ratio_argument float_of_string).



End ScriptRuns.

(** ** The further properties on sample inputs *)

(** Fill ratio 3.0 on the 400 x 300 image with the 50 x 40 mark. *)
Lemma crop_box_never_cuts_content_witness :
  wf_image mark_image = true /\ partial_content mark_image = true /\
  crop_box_of mark_image float_three = Ok (100, 95, 150, 145) /\
  (0 <= 100 <= 100 /\ 0 <= 95 <= 100 /\ 150 <= 150 /\ 140 <= 145 /\
   content_side_of (100, 100, 150, 140) <= 150 - 100).
Proof.
  assert (wf_image mark_image = true) as H1 by reflexivity.
  assert (partial_content mark_image = true) as H2 by reflexivity.
  assert (crop_box_of mark_image float_three = Ok (100, 95, 150, 145)) as H3
    by (vm_compute; reflexivity).
  exact (conj H1 (conj H2 (conj H3
    (crop_box_never_cuts_content mark_image float_three 100 100 150 140 100 95 150 145
       H1 eq_refl H2 H3)))).
Defined.

(** A mark in the top left corner: the crop is flush with both edges. *)
Lemma crop_box_centered_witness :
  wf_image corner_image = true /\ partial_content corner_image = true /\
  crop_box_of corner_image default_fill_ratio = Ok (0, 0, 78, 78) /\
  let side := 78 - 0 in
  (side <= 0 + 50 -> 0 + 50 + side <= 2 * im_width corner_image ->
   -1 <= (0 - 0) - (78 - 50) <= 1) /\
  (0 + 50 < side -> 0 = 0) /\
  (2 * im_width corner_image < 0 + 50 + side -> 0 = Z.max 0 (im_width corner_image - side)) /\
  (side <= 0 + 40 -> 0 + 40 + side <= 2 * im_height corner_image ->
   -1 <= (0 - 0) - (78 - 40) <= 1) /\
  (0 + 40 < side -> 0 = 0) /\
  (2 * im_height corner_image < 0 + 40 + side -> 0 = Z.max 0 (im_height corner_image - side)).
Proof.
  assert (wf_image corner_image = true) as H1 by reflexivity.
  assert (partial_content corner_image = true) as H2 by reflexivity.
  assert (crop_box_of corner_image default_fill_ratio = Ok (0, 0, 78, 78)) as H3
    by (vm_compute; reflexivity).
  exact (conj H1 (conj H2 (conj H3
    (crop_box_centered corner_image default_fill_ratio 0 0 50 40 0 0 78 78
       H1 eq_refl H2 H3)))).
Defined.


(** Fill ratio 1.5 on a square mark: the crop box is the bounding box. *)
Lemma crop_tight_ratio_ge_1_witness :
  wf_image square_mark_image = true /\ partial_content square_mark_image = true /\
  valid_binary prec emax float_one_and_half = true /\
  SFleb float_one float_one_and_half = true /\
  let side := content_side_of (100, 100, 150, 150) in
  exists cl ct,
    crop_box_of square_mark_image float_one_and_half = Ok (cl, ct, cl + side, ct + side) /\
    (150 - 100 = side -> cl = 100) /\ (150 - 100 = side -> ct = 100).
Proof.
  assert (wf_image square_mark_image = true) as H1 by reflexivity.
  assert (partial_content square_mark_image = true) as H2 by reflexivity.
  assert (valid_binary prec emax float_one_and_half = true) as H3 by reflexivity.
  assert (SFleb float_one float_one_and_half = true) as H4 by reflexivity.
  exact (conj H1 (conj H2 (conj H3 (conj H4
    (crop_tight_ratio_ge_1 square_mark_image 100 100 150 150 float_one_and_half
       H1 eq_refl H2 H3 H4))))).
Defined.

(** Fill ratios 0.5 and 0.64 on the blank 200 x 100 image. *)
Lemma fixed_ratio_crop_monotone_witness :
  wf_image blank_image = true /\ partial_content blank_image = false /\
  in_0_1 float_half = true /\ in_0_1 default_fill_ratio = true /\
  SFleb float_half default_fill_ratio = true /\
  exists l1 t1 s1 l2 t2 s2,
    crop_box_of blank_image float_half = Ok (l1, t1, l1 + s1, t1 + s1) /\
    crop_box_of blank_image default_fill_ratio = Ok (l2, t2, l2 + s2, t2 + s2) /\
    1 <= s1 <= s2 /\ s2 <= min_dim_of blank_image /\
    0 <= l2 <= l1 /\ 0 <= t2 <= t1 /\
    l1 + s1 <= l2 + s2 <= im_width blank_image /\
    t1 + s1 <= t2 + s2 <= im_height blank_image.
Proof.
  assert (wf_image blank_image = true) as H1 by reflexivity.
  assert (partial_content blank_image = false) as H2 by reflexivity.
  assert (in_0_1 float_half = true) as H3 by reflexivity.
  assert (in_0_1 default_fill_ratio = true) as H4 by reflexivity.
  assert (SFleb float_half default_fill_ratio = true) as H5 by reflexivity.
  exact (conj H1 (conj H2 (conj H3 (conj H4 (conj H5
    (fixed_ratio_crop_monotone blank_image float_half default_fill_ratio
       H1 H2 H3 H4 H5)))))).
Defined.

(** The 50 x 40 mark with the default ratio: a crop side of 78, for
    50 / 0.64 = 78.125. *)
Lemma crop_side_fill_accuracy_witness :
  wf_image mark_image = true /\ in_0_1 default_fill_ratio = true /\
  partial_content mark_image = true /\
  crop_box_of mark_image default_fill_ratio = Ok (86, 81, 164, 159) /\
  (B2Q default_fill_ratio * inject_Z (box_width (86, 81, 164, 159)%Z) <=
   inject_Z (content_side_of (100, 100, 150, 140)%Z) * (1 + bpow (-53)))%Q /\
  (box_width (86, 81, 164, 159) < min_dim_of mark_image ->
   (inject_Z (content_side_of (100, 100, 150, 140)%Z) * (1 - bpow (-53)) <
    B2Q default_fill_ratio * inject_Z (box_width (86, 81, 164, 159) + 1)%Z)%Q).
Proof.
  assert (wf_image mark_image = true) as H1 by reflexivity.
  assert (in_0_1 default_fill_ratio = true) as H2 by reflexivity.
  assert (partial_content mark_image = true) as H3 by reflexivity.
  assert (crop_box_of mark_image default_fill_ratio = Ok (86, 81, 164, 159)) as H4
    by (vm_compute; reflexivity).
  exact (conj H1 (conj H2 (conj H3 (conj H4
    (crop_side_fill_accuracy mark_image default_fill_ratio (100, 100, 150, 140)
       (86, 81, 164, 159) H1 H2 eq_refl H3 H4))))).
Defined.

(** The blank 200 x 100 image with the default ratio: a side of 64. *)
Lemma fixed_ratio_side_accuracy_witness :
  wf_image blank_image = true /\ in_0_1 default_fill_ratio = true /\
  partial_content blank_image = false /\
  crop_box_of blank_image default_fill_ratio = Ok (68, 18, 132, 82) /\
  let product := (inject_Z (min_dim_of blank_image) * B2Q default_fill_ratio)%Q in
  (product * (1 - bpow (-53)) - 1 < inject_Z (box_width (68, 18, 132, 82)%Z))%Q /\
  (box_width (68, 18, 132, 82) = 1 \/
   (inject_Z (box_width (68, 18, 132, 82)%Z) <= product * (1 + bpow (-53)))%Q).
Proof.
  assert (wf_image blank_image = true) as H1 by reflexivity.
  assert (in_0_1 default_fill_ratio = true) as H2 by reflexivity.
  assert (partial_content blank_image = false) as H3 by reflexivity.
  assert (crop_box_of blank_image default_fill_ratio = Ok (68, 18, 132, 82)) as H4
    by (vm_compute; reflexivity).
  exact (conj H1 (conj H2 (conj H3 (conj H4
    (fixed_ratio_side_accuracy blank_image default_fill_ratio (68, 18, 132, 82)
       H1 H2 H3 H4))))).
Defined.



(** Fill ratio 1.5 on the blank 200 x 100 image: a crop side of 150, for a
    box that starts 25 pixels above the image. *)
Lemma fixed_ratio_ge_1_witness :
  wf_image blank_image = true /\ partial_content blank_image = false /\
  valid_binary prec emax float_one_and_half = true /\
  SFleb float_one float_one_and_half = true /\
  crop_box_of blank_image float_one_and_half = Ok (25, -25, 175, 125) /\
  ((exists side,
      min_dim_of blank_image <= side /\
      crop_box_of blank_image float_one_and_half =
        Ok (centered_square_crop_bounds (im_width blank_image)
              (im_height blank_image) side)) \/
   (is_infinite (int_argument blank_image float_one_and_half) = true /\
    crop_box_of blank_image float_one_and_half = Raise OverflowError)).
Proof.
  assert (wf_image blank_image = true) as H1 by reflexivity.
  assert (partial_content blank_image = false) as H2 by reflexivity.
  assert (valid_binary prec emax float_one_and_half = true) as H3 by reflexivity.
  assert (SFleb float_one float_one_and_half = true) as H4 by reflexivity.
  assert (crop_box_of blank_image float_one_and_half = Ok (25, -25, 175, 125)) as H5
    by (vm_compute; reflexivity).
  exact (conj H1 (conj H2 (conj H3 (conj H4 (conj H5
    (fixed_ratio_ge_1 blank_image float_one_and_half H1 H2 H3 H4)))))).
Defined.
